(** * CachedFileStat: stat() at a throttled rate behind an LRU cache

    A shallow embedding of [ext/common/Utils/CachedFileStat.hpp]
    (namespace Passenger): the class [CachedFileStat::Entry] with its
    [expired] and [refresh] members, and the class [CachedFileStat] with
    [stat], [setMaxSize] and [knows].

    - C++ integers are [Z] with the wrap-around of every conversion
      written out ([to_uint], [to_int], [to_time_t]).
    - The clock and the filesystem are an oracle [Sys], one per call: a
      call of [stat] reads the clock at most once and calls stat(2) at
      most once.
    - [errno] and the log of the stat(2) calls made live in [Thread],
      threaded through every call.
    - A C++ exception leaves the object in the state it had when the
      exception was raised: [Throw] carries that state.
    - Undefined behaviour (dereferencing the end of an empty list) is
      [None]. *)

From Stdlib Require Import ZArith Lia.
From stdpp Require Import base option list strings gmap fin_maps.

Local Open Scope Z_scope.

(** ** Machine integers *)

(** Conversion to [unsigned int] (32 bits). *)
Definition to_uint (z : Z) : Z := z mod 2 ^ 32.

(** Conversion to [int] (32 bits, two's complement). *)
Definition to_int (z : Z) : Z := (z + 2 ^ 31) mod 2 ^ 32 - 2 ^ 31.

(** Arithmetic in [time_t] (64 bits, two's complement). *)
Definition to_time_t (z : Z) : Z := (z + 2 ^ 63) mod 2 ^ 64 - 2 ^ 63.

(** ** The operating system seen from one call *)

(** [struct stat], the fixed-size metadata record. *)
Record struct_stat := {
  st_dev : Z; st_ino : Z; st_mode : Z; st_nlink : Z;
  st_uid : Z; st_gid : Z; st_rdev : Z; st_size : Z;
  st_atime : Z; st_mtime : Z; st_ctime : Z
}.

(** [memset(&info, 0, sizeof(struct stat))]. *)
Definition zero_stat : struct_stat :=
  {| st_dev := 0; st_ino := 0; st_mode := 0; st_nlink := 0;
     st_uid := 0; st_gid := 0; st_rdev := 0; st_size := 0;
     st_atime := 0; st_mtime := 0; st_ctime := 0 |}.

Inductive exn := TimeRetrievalException | thread_interrupted.

(** What [SystemTime::get()] does when called. *)
Inductive clock_reply :=
  | ClockReads (now : Z)
  | ClockThrows (e : exn).

(** What the stat(2) system call answers for a path. *)
Inductive stat_reply :=
  | StatOk (st : struct_stat)
  | StatFail (code : Z)
  | StatInterrupted.

Record Sys := {
  SystemTime_get : clock_reply;
  os_stat : string → stat_reply
}.

(** The calling thread: its [errno] and the stat(2) calls it has made. *)
Record Thread := {
  errno : Z;
  stat_calls : list string
}.

(** The result of a member function: it returns a value or throws, and
    leaves a state either way. *)
Inductive Res (S A : Type) :=
  | Ret (s : S) (a : A)
  | Throw (s : S) (e : exn).
Arguments Ret {S A} s a.
Arguments Throw {S A} s e.

Definition state_of {S A} (r : Res S A) : S :=
  match r with Ret s _ => s | Throw s _ => s end.

Definition returned {S A} (r : Res S A) : option A :=
  match r with Ret _ a => Some a | Throw _ _ => None end.

(** Modelled from the spec: [oxt::syscalls::stat], the metadata-query
    provider, is not part of the source file. It is "a function (path) ->
    (success flag, metadataRecord, errorCode)"; the caller's buffer
    receives the record on success and, on failure, "the prior snapshot"
    is left in it while the failure code goes to [errno]; a call that
    succeeds leaves [errno] alone. An interruption request makes it throw
    [thread_interrupted]. Every call is logged in [stat_calls]. *)
Definition syscalls_stat (sys : Sys) (path : string) (buf : struct_stat)
    (th : Thread) : Res (struct_stat * Thread) Z :=
  let calls := stat_calls th ++ [path] in
  match os_stat sys path with
  | StatOk st => Ret (st, {| errno := errno th; stat_calls := calls |}) 0
  | StatFail code => Ret (buf, {| errno := code; stat_calls := calls |}) (-1)
  | StatInterrupted =>
      Throw (buf, {| errno := errno th; stat_calls := calls |}) thread_interrupted
  end.

(** ** class CachedFileStat::Entry *)

Record Entry := {
  last_result : Z;     (* int: the last return value of stat() *)
  last_errno : Z;      (* int: the errno set by the last stat() call *)
  last_time : Z;       (* time_t: the last time a stat() was performed *)
  info : struct_stat;  (* the cached stat info *)
  filename : string
}.

(** [Entry(const string &_filename)]. *)
Definition Entry_new (_filename : string) : Entry :=
  {| last_result := -1; last_errno := 0; last_time := 0;
     info := zero_stat; filename := _filename |}.

(** [filename.c_str()] as a C function reads it: the characters before
    the first NUL. *)
Fixpoint c_str (s : string) : string :=
  match s with
  | EmptyString => EmptyString
  | String c s' =>
      if decide (c = Ascii.zero) then EmptyString else String c (c_str s')
  end.

(** [(unsigned int) (currentTime - begin)]: a [time_t] difference
    converted to [unsigned int]. *)
Definition elapsed (currentTime begin : Z) : Z :=
  to_uint (to_time_t (currentTime - begin)).

(** [bool expired(time_t begin, unsigned int interval, time_t &currentTime)]:
    the pair is the returned flag and the value left in [currentTime]. *)
Definition expired (sys : Sys) (begin interval : Z) : exn + (bool * Z) :=
  match SystemTime_get sys with
  | ClockThrows e => inl e
  | ClockReads currentTime =>
      inr (bool_decide (interval ≤ elapsed currentTime begin), currentTime)
  end.

(** [int refresh(unsigned int throttleRate)]. *)
Definition refresh (sys : Sys) (throttleRate : Z) (self : Entry) (th : Thread)
    : Res (Entry * Thread) Z :=
  match expired sys (last_time self) throttleRate with
  | inl e => Throw (self, th) e
  | inr (true, currentTime) =>
      match syscalls_stat sys (c_str (filename self)) (info self) th with
      | Throw (buf, th') e =>
          Throw ({| last_result := last_result self;
                    last_errno := last_errno self;
                    last_time := last_time self;
                    info := buf;
                    filename := filename self |}, th') e
      | Ret (buf, th') ret =>
          Ret ({| last_result := ret;
                  last_errno := errno th';
                  last_time := currentTime;
                  info := buf;
                  filename := filename self |}, th') ret
      end
  | inr (false, _) =>
      Ret (self, {| errno := last_errno self; stat_calls := stat_calls th |})
          (last_result self)
  end.

(** The number of stat(2) calls a step has made. *)
Definition real_queries (before after : Thread) : Z :=
  Z.of_nat (length (stat_calls after)) - Z.of_nat (length (stat_calls before)).

(** ** class CachedFileStat *)

(** [EntryList::iterator]: the address of a list node, the past-the-end
    position of [entries], or the singular value [EntryList::iterator()]. *)
Inductive iterator :=
  | Singular
  | End
  | Node (addr : nat).

Global Instance iterator_eq_dec : EqDecision iterator.
Proof. solve_decision. Defined.

(** [entries] is the node sequence of the [std::list], front first: each
    node has an address, which no list operation changes, and holds the
    (shared) [Entry] its [EntryPtr] points to. [cache] is the
    [StringMap<EntryList::iterator>]. *)
Record CachedFileStat := {
  maxSize : Z;                        (* unsigned int *)
  entries : list (nat * Entry);       (* EntryList *)
  cache : gmap string iterator       (* EntryMap *)
}.

(** [CachedFileStat(unsigned int maxSize = 0)]. *)
Definition CachedFileStat_new (maxSize : Z) : CachedFileStat :=
  {| maxSize := maxSize; entries := []; cache := ∅ |}.

(** [entries.begin()]. *)
Definition list_begin (l : list (nat * Entry)) : iterator :=
  match l with
  | [] => End
  | (a, _) :: _ => Node a
  end.

(** [*it]: the entry held by the node an iterator designates. *)
Definition deref (l : list (nat * Entry)) (it : iterator) : option Entry :=
  match it with
  | Node a => snd <$> head (filter (λ n, n.1 = a) l)
  | _ => None
  end.

(** The node list without the node at address [a]. *)
Definition unlink (a : nat) (l : list (nat * Entry)) : list (nat * Entry) :=
  filter (λ n, n.1 ≠ a) l.

(** The address [new] gives the next list node: one that no live node has. *)
Definition fresh_addr (l : list (nat * Entry)) : nat := S (max_list (l.*1)).

(** [entries.pop_back(); cache.remove(filename2)] for the entry at the
    back; undefined on an empty list. *)
Definition evict_back (this : CachedFileStat) : option CachedFileStat :=
  match last (entries this) with
  | None => None
  | Some (_, victim) =>
      Some {| maxSize := maxSize this;
              entries := removelast (entries this);
              cache := delete (filename victim) (cache this) |}
  end.

(** [maxSize != 0 && cache.size() == maxSize]: the cache is full. *)
Definition full (capacity : Z) (size : nat) : Prop :=
  capacity ≠ 0 ∧ Z.of_nat size = capacity.

(** Lines 166-193 of [stat]: find the entry or create it, and make its
    node the front of [entries]. Returns the object after these lines and
    the entry the local [entry] points to. *)
Definition locate (fname : string) (this : CachedFileStat)
    : option (CachedFileStat * Entry) :=
  let it := default End (cache this !! fname) in
  if decide (it = End) then
    this1 ← (if decide (full (maxSize this) (size (cache this)))
             then evict_back this else Some this);
    let entry := Entry_new fname in
    let es := (fresh_addr (entries this1), entry) :: entries this1 in
    Some ({| maxSize := maxSize this1;
             entries := es;
             cache := <[fname := list_begin es]> (cache this1) |}, entry)
  else
    entry ← deref (entries this) it;
    match it with
    | Node a =>
        let es := (a, entry) :: unlink a (entries this) in
        Some ({| maxSize := maxSize this;
                 entries := es;
                 cache := <[fname := list_begin es]> (cache this) |}, entry)
    | _ => None
    end.

(** The write through [entry->]: the entry is the one in the front node. *)
Definition store_front (entry : Entry) (this : CachedFileStat) : CachedFileStat :=
  {| maxSize := maxSize this;
     entries := match entries this with
                | [] => []
                | (a, _) :: l => (a, entry) :: l
                end;
     cache := cache this |}.

(** [int stat(const StaticString &filename, struct stat *buf,
    unsigned int throttleRate = 0)]: the value returned is the pair of
    the [int] result and the record written to [*buf]. *)
Definition stat (sys : Sys) (fname : string) (throttleRate : Z)
    (this : CachedFileStat) (th : Thread)
    : option (Res (CachedFileStat * Thread) (Z * struct_stat)) :=
  '(this1, entry) ← locate fname this;
  match refresh sys throttleRate entry th with
  | Throw (entry', th') e => Some (Throw (store_front entry' this1, th') e)
  | Ret (entry', th') ret =>
      Some (Ret (store_front entry' this1, th') (ret, info entry'))
  end.

(** The loop of [setMaxSize]: [k] iterations of
    [entries.back()], [entries.pop_back()], [cache.remove(filename)]. *)
Fixpoint pop_oldest (k : nat) (this : CachedFileStat) : option CachedFileStat :=
  match k with
  | O => Some this
  | S k' => this1 ← evict_back this; pop_oldest k' this1
  end.

(** [int toRemove = cache.size() - maxSize]: an unsigned difference
    converted to [int]. *)
Definition toRemove (this : CachedFileStat) (maxSize' : Z) : Z :=
  to_int (to_uint (Z.of_nat (size (cache this)) - maxSize')).

(** [void setMaxSize(unsigned int maxSize)]: the loop
    [for (int i = 0; i < toRemove; i++)] runs [Z.to_nat toRemove] times. *)
Definition setMaxSize (maxSize' : Z) (this : CachedFileStat)
    : option CachedFileStat :=
  this1 ← (if decide (maxSize' ≠ 0)
           then pop_oldest (Z.to_nat (toRemove this maxSize')) this
           else Some this);
  Some {| maxSize := maxSize';
          entries := entries this1;
          cache := cache this1 |}.

(** [bool knows(const StaticString &filename) const]: [cache.get(filename)]
    is the default-constructed iterator when the key is absent. *)
Definition knows (fname : string) (this : CachedFileStat) : bool :=
  bool_decide (default Singular (cache this !! fname) ≠ Singular).

(** ** Sequences of operations *)

Inductive Op :=
  | OpStat (sys : Sys) (fname : string) (throttleRate : Z)
  | OpSetMaxSize (n : Z).

(** One call. A caller that catches the exception of [stat] goes on with
    the object as the call left it. *)
Definition step (op : Op) (st : CachedFileStat * Thread)
    : option (CachedFileStat * Thread) :=
  match op with
  | OpStat sys fname throttleRate =>
      state_of <$> stat sys fname throttleRate st.1 st.2
  | OpSetMaxSize n => (λ this, (this, st.2)) <$> setMaxSize n st.1
  end.

Fixpoint run (ops : list Op) (st : CachedFileStat * Thread)
    : option (CachedFileStat * Thread) :=
  match ops with
  | [] => Some st
  | op :: ops' => st' ← step op st; run ops' st'
  end.

(** ** The structural invariant *)

(** The paths in recency order, most recently used first. *)
Definition names (l : list (nat * Entry)) : list string :=
  (λ n, filename n.2) <$> l.

(** The index a node list determines: each path to its node. *)
Definition index_of (l : list (nat * Entry)) : gmap string iterator :=
  list_to_map ((λ n, (filename n.2, Node n.1)) <$> l).

(** [index] and [order] are mutually consistent: the nodes are distinct,
    no path is listed twice, and the index maps exactly the listed paths,
    each to its node. *)
Definition consistent (this : CachedFileStat) : Prop :=
  NoDup (entries this).*1
  ∧ NoDup (names (entries this))
  ∧ cache this = index_of (entries this).

(** The capacity is an [unsigned int] and, when not zero, bounds the size. *)
Definition bounded (this : CachedFileStat) : Prop :=
  0 ≤ maxSize this < 2 ^ 32
  ∧ (maxSize this ≠ 0 → Z.of_nat (length (entries this)) ≤ maxSize this).

Definition wf (this : CachedFileStat) : Prop :=
  consistent this ∧ bounded this.

Global Instance wf_dec this : Decision (wf this).
Proof. unfold wf, consistent, bounded. apply _. Defined.

(** The cache object that a capacity and a node list determine. *)
Definition of_list (capacity : Z) (l : list (nat * Entry)) : CachedFileStat :=
  {| maxSize := capacity; entries := l; cache := index_of l |}.

(** The recency order a query of [f] leaves, as a function on paths:
    a hit moves [f] to the front, a miss puts it in front after dropping
    the last path of a full cache. *)
Definition touch (capacity : Z) (f : string) (l : list string) : list string :=
  if decide (f ∈ l) then f :: filter (λ g, g ≠ f) l
  else if decide (full capacity (length l)) then f :: removelast l
  else f :: l.

(** The paths a run of queries touches, and the recency order it leaves. *)
Definition touches (capacity : Z) (fs : list string) (l : list string)
    : list string :=
  foldl (λ acc f, touch capacity f acc) l fs.

(** The front of the recency order is [fname], in the node the index
    gives for it. *)
Definition most_recent (fname : string) (this : CachedFileStat) : Prop :=
  ∃ a entry rest,
    entries this = (a, entry) :: rest
    ∧ filename entry = fname
    ∧ cache this !! fname = Some (Node a).

(** ** Concrete systems and threads, for the examples *)

(** A readable clock showing [now], over a filesystem [fs]. *)
Definition sys_at (now : Z) (fs : string → stat_reply) : Sys :=
  {| SystemTime_get := ClockReads now; os_stat := fs |}.

(** A clock that cannot be read. *)
Definition sys_no_clock (fs : string → stat_reply) : Sys :=
  {| SystemTime_get := ClockThrows TimeRetrievalException; os_stat := fs |}.

(** A filesystem without files: every stat(2) fails with ENOENT. *)
Definition fs_missing : string → stat_reply := λ _, StatFail 2.

(** A filesystem where every path is a regular file of 7 bytes. *)
Definition fs_files : string → stat_reply :=
  λ _, StatOk {| st_dev := 1; st_ino := 42; st_mode := 33188; st_nlink := 1;
                 st_uid := 0; st_gid := 0; st_rdev := 0; st_size := 7;
                 st_atime := 50; st_mtime := 50; st_ctime := 50 |}.

Definition thread0 : Thread := {| errno := 0; stat_calls := [] |}.

(** An entry whose file was found by a stat(2) at time 100. *)
Definition entry_at_100 : Entry :=
  {| last_result := 0; last_errno := 0; last_time := 100;
     info := zero_stat; filename := "a" |}.

(** An entry whose file was found by a stat(2) at time 101. *)
Definition entry_b_at_101 : Entry :=
  {| last_result := 0; last_errno := 0; last_time := 101;
     info := zero_stat; filename := "b" |}.

(** A full cache of capacity 2: "b" is the most recently used path and
    "a" the least recently used one. *)
Definition cache_ba : CachedFileStat :=
  of_list 2 [(2%nat, entry_b_at_101); (1%nat, entry_at_100)].

(** Queries as operations, and the paths they ask for. *)
Definition queries (qs : list (Sys * string * Z)) : list Op :=
  (λ q, OpStat q.1.1 q.1.2 q.2) <$> qs.

Definition paths (qs : list (Sys * string * Z)) : list string :=
  (λ q, q.1.2) <$> qs.

(** Queries of "A", "B" and "C", ten seconds of throttle each. *)
Definition queries_abc : list (Sys * string * Z) :=
  [(sys_at 100 fs_files, "A", 10); (sys_at 101 fs_files, "B", 10);
   (sys_at 102 fs_files, "C", 10)].

(** The arguments for which the [int] conversion in [setMaxSize] cannot
    wrap on a cache of fewer than 2^31 entries. *)
Definition op_in_range (op : Op) : Prop :=
  match op with
  | OpStat _ _ _ => True
  | OpSetMaxSize n => 0 ≤ n ≤ 2 ^ 31
  end.

(** A name with an embedded NUL: "a", NUL, "b". *)
Definition name_with_nul : string :=
  String.append "a" (String Ascii.zero "b").

(** The cache of "b" and "a" without a bound. *)
Definition cache_ba_unbounded : CachedFileStat :=
  of_list 0 [(2%nat, entry_b_at_101); (1%nat, entry_at_100)].

(** A run that queries, shrinks and queries again. *)
Definition ops_shrink : list Op :=
  [OpStat (sys_at 100 fs_files) "A" 10; OpStat (sys_at 101 fs_missing) "B" 10;
   OpStat (sys_no_clock fs_files) "C" 10; OpSetMaxSize 1;
   OpStat (sys_at 103 fs_files) "A" 10].

(** The distinct paths of a list, each at its first occurrence. *)
Fixpoint distinct (l : list string) : list string :=
  match l with
  | [] => []
  | f :: l' => f :: filter (λ g, g ≠ f) (distinct l')
  end.

(** The distinct paths of a sequence of queries, the latest queried
    first, cut to [capacity] paths when the capacity is not zero. *)
Definition recent_paths (capacity : Z) (fs : list string) : list string :=
  if decide (capacity = 0) then distinct (reverse fs)
  else take (Z.to_nat capacity) (distinct (reverse fs)).

(** * Properties *)

(** ** Machine integers *)

Lemma elapsed_mod now begin : elapsed now begin = (now - begin) mod 2 ^ 32.
Proof.
  unfold elapsed, to_uint, to_time_t.
  rewrite (Z.mod_eq (now - begin + 2 ^ 63) (2 ^ 64)) by lia.
  set (q := (now - begin + 2 ^ 63) / 2 ^ 64).
  replace (now - begin + 2 ^ 63 - 2 ^ 64 * q - 2 ^ 63)
    with (now - begin + (- 2 ^ 32 * q) * 2 ^ 32) by lia.
  apply Z_mod_plus_full.
Qed.

Lemma elapsed_range now begin : 0 ≤ elapsed now begin < 2 ^ 32.
Proof. rewrite elapsed_mod. apply Z.mod_pos_bound. lia. Qed.

Lemma elapsed_forward now begin :
  0 ≤ now - begin < 2 ^ 32 → elapsed now begin = now - begin.
Proof. intros. rewrite elapsed_mod. by apply Z.mod_small. Qed.

Lemma elapsed_le now begin : 0 ≤ now - begin → elapsed now begin ≤ now - begin.
Proof. intros. rewrite elapsed_mod. apply Z.mod_le; lia. Qed.

Lemma elapsed_backward now begin :
  0 < begin - now < 2 ^ 32 → elapsed now begin = 2 ^ 32 - (begin - now).
Proof.
  intros. rewrite elapsed_mod.
  replace (now - begin) with (2 ^ 32 - (begin - now) + (-1) * 2 ^ 32) by lia.
  rewrite Z_mod_plus_full. apply Z.mod_small. lia.
Qed.

(** ** Entry.refresh *)

Section refresh.
Context (sys : Sys) (throttleRate : Z) (self : Entry) (th : Thread).

Lemma refresh_clock_throws e :
  SystemTime_get sys = ClockThrows e →
  refresh sys throttleRate self th = Throw (self, th) e.
Proof. intros Hc. unfold refresh, expired. by rewrite Hc. Qed.

Lemma refresh_fresh now :
  SystemTime_get sys = ClockReads now →
  elapsed now (last_time self) < throttleRate →
  refresh sys throttleRate self th
  = Ret (self, {| errno := last_errno self; stat_calls := stat_calls th |})
        (last_result self).
Proof.
  intros Hc Hlt. unfold refresh, expired. rewrite Hc.
  rewrite bool_decide_eq_false_2 by lia. done.
Qed.

Lemma refresh_stale_ok now st :
  SystemTime_get sys = ClockReads now →
  throttleRate ≤ elapsed now (last_time self) →
  os_stat sys (c_str (filename self)) = StatOk st →
  refresh sys throttleRate self th
  = Ret ({| last_result := 0; last_errno := errno th; last_time := now;
            info := st; filename := filename self |},
         {| errno := errno th;
            stat_calls := stat_calls th ++ [c_str (filename self)] |}) 0.
Proof.
  intros Hc Hle Hs. unfold refresh, expired, syscalls_stat.
  rewrite Hc, bool_decide_eq_true_2, Hs by done. done.
Qed.

Lemma refresh_stale_fail now code :
  SystemTime_get sys = ClockReads now →
  throttleRate ≤ elapsed now (last_time self) →
  os_stat sys (c_str (filename self)) = StatFail code →
  refresh sys throttleRate self th
  = Ret ({| last_result := -1; last_errno := code; last_time := now;
            info := info self; filename := filename self |},
         {| errno := code;
            stat_calls := stat_calls th ++ [c_str (filename self)] |}) (-1).
Proof.
  intros Hc Hle Hs. unfold refresh, expired, syscalls_stat.
  rewrite Hc, bool_decide_eq_true_2, Hs by done. done.
Qed.

Lemma refresh_stale_interrupted now :
  SystemTime_get sys = ClockReads now →
  throttleRate ≤ elapsed now (last_time self) →
  os_stat sys (c_str (filename self)) = StatInterrupted →
  refresh sys throttleRate self th
  = Throw (self, {| errno := errno th;
                    stat_calls := stat_calls th ++ [c_str (filename self)] |})
          thread_interrupted.
Proof.
  intros Hc Hle Hs. unfold refresh, expired, syscalls_stat.
  rewrite Hc, bool_decide_eq_true_2, Hs by done. by destruct self.
Qed.

(** The number of stat(2) calls of one [refresh]. *)
Lemma refresh_real_queries now :
  SystemTime_get sys = ClockReads now →
  real_queries th (state_of (refresh sys throttleRate self th)).2
  = if bool_decide (throttleRate ≤ elapsed now (last_time self))
    then 1 else 0.
Proof.
  intros Hc. case_bool_decide as Hle.
  - destruct (os_stat sys (c_str (filename self))) as [st|code|] eqn:Hs.
    + erewrite refresh_stale_ok by done. unfold real_queries; simpl.
      rewrite length_app; simpl. lia.
    + erewrite refresh_stale_fail by done. unfold real_queries; simpl.
      rewrite length_app; simpl. lia.
    + erewrite refresh_stale_interrupted by done. unfold real_queries; simpl.
      rewrite length_app; simpl. lia.
  - erewrite refresh_fresh by (done || lia). unfold real_queries; simpl. lia.
Qed.

(** [refresh] never renames an entry. *)
Lemma refresh_filename :
  filename (state_of (refresh sys throttleRate self th)).1 = filename self.
Proof.
  unfold refresh, expired, syscalls_stat.
  destruct (SystemTime_get sys); [|done].
  case_bool_decide; [|done].
  by destruct (os_stat sys (c_str (filename self))).
Qed.
End refresh.

(** C2: when a triggered refresh's real metadata query fails, the entry's
    metadata snapshot (and its path) keep their prior value; the recorded
    outcome becomes the failure (-1 with the failure code), and the time
    read by the expiry check becomes the new [last_time]. The refresh made
    exactly one stat(2) call. *)
Theorem refresh_failed_query_keeps_snapshot
    sys throttleRate self th now code :
  SystemTime_get sys = ClockReads now →
  throttleRate ≤ elapsed now (last_time self) →
  os_stat sys (c_str (filename self)) = StatFail code →
  ∃ self' th',
    refresh sys throttleRate self th = Ret (self', th') (-1)
    ∧ info self' = info self
    ∧ filename self' = filename self
    ∧ last_result self' = -1
    ∧ last_errno self' = code
    ∧ last_time self' = now
    ∧ errno th' = code
    ∧ real_queries th th' = 1.
Proof.
  intros Hc Hle Hs. eexists _, _.
  split; [by eapply refresh_stale_fail|]. simpl.
  repeat split. unfold real_queries; simpl. rewrite length_app; simpl. lia.
Qed.

Lemma refresh_failed_query_keeps_snapshot_witness :
  ∃ self' th',
    refresh (sys_at 160 fs_missing) 5 entry_at_100 thread0
    = Ret (self', th') (-1)
    ∧ info self' = info entry_at_100
    ∧ filename self' = filename entry_at_100
    ∧ last_result self' = -1
    ∧ last_errno self' = 2
    ∧ last_time self' = 160
    ∧ errno th' = 2
    ∧ real_queries thread0 th' = 1.
Proof.
  apply (refresh_failed_query_keeps_snapshot
           (sys_at 160 fs_missing) 5 entry_at_100 thread0 160 2).
  - reflexivity.
  - vm_compute. discriminate.
  - reflexivity.
Defined.

(** C3: with a readable clock, [refresh t] makes a real query exactly
    when the unsigned difference between the time read and [last_time] is
    at least [t], and then exactly one. So, for an entry queried twice
    within [t] seconds, the second call, coming less than [t] seconds
    after the call that made the real query, makes no real query and
    returns the identical result, error code and record, leaving the
    entry as it is; once the unsigned difference has reached [t] the next
    call makes exactly one real query; and [t = 0] makes a real query on
    every call. *)
Theorem refresh_throttle sys t self th now :
  SystemTime_get sys = ClockReads now →
  real_queries th (state_of (refresh sys t self th)).2
  = (if bool_decide (t ≤ (now - last_time self) mod 2 ^ 32) then 1 else 0)
  ∧ ((now - last_time self) mod 2 ^ 32 < t →
     refresh sys t self th
     = Ret (self, {| errno := last_errno self; stat_calls := stat_calls th |})
           (last_result self))
  ∧ (∀ self1 th1 r1 sys2 now2,
       refresh sys t self th = Ret (self1, th1) r1 →
       real_queries th th1 = 1 →
       SystemTime_get sys2 = ClockReads now2 →
       (0 ≤ now2 - now < t →
        refresh sys2 t self1 th1 = Ret (self1, th1) r1
        ∧ real_queries th1 (state_of (refresh sys2 t self1 th1)).2 = 0)
       ∧ (t ≤ (now2 - now) mod 2 ^ 32 →
          real_queries th1 (state_of (refresh sys2 t self1 th1)).2 = 1))
  ∧ (t = 0 → real_queries th (state_of (refresh sys t self th)).2 = 1).
Proof.
  intros Hc. pose proof (refresh_real_queries sys t self th now Hc) as Hcount.
  rewrite elapsed_mod in Hcount. split; [done|]. split.
  { intros Hlt. apply (refresh_fresh _ _ _ _ now); [done|].
    by rewrite elapsed_mod. }
  split.
  - intros self1 th1 r1 sys2 now2 Hr Hreal Hc2.
    rewrite Hr in Hcount. cbn [state_of snd] in Hcount.
    case_bool_decide as Hle; [|lia]. rewrite <- elapsed_mod in Hle.
    assert (last_time self1 = now ∧ last_errno self1 = errno th1
            ∧ last_result self1 = r1) as (Ht & He & Hres).
    { revert Hr. unfold refresh, expired, syscalls_stat.
      rewrite Hc, bool_decide_eq_true_2 by done.
      destruct (os_stat sys (c_str (filename self)));
        intros [= <- <- <-]; done. }
    pose proof (refresh_real_queries sys2 t self1 th1 now2 Hc2) as Hcount2.
    rewrite Ht in Hcount2. split.
    + intros Hnow.
      assert (elapsed now2 now < t) as Hlt.
      { pose proof (elapsed_le now2 now). lia. }
      rewrite bool_decide_eq_false_2 in Hcount2 by lia.
      split; [|done].
      erewrite refresh_fresh; [| done | by rewrite Ht].
      rewrite He, Hres. by destruct th1.
    + intros Hle2. rewrite <- elapsed_mod in Hle2.
      by rewrite bool_decide_eq_true_2 in Hcount2.
  - intros ->. rewrite Hcount. rewrite bool_decide_eq_true_2; [done|].
    apply Z.mod_pos_bound. lia.
Qed.

Lemma refresh_throttle_witness :
  real_queries thread0
    (state_of (refresh (sys_at 160 fs_files) 5 entry_at_100 thread0)).2
  = (if bool_decide (5 ≤ (160 - last_time entry_at_100) mod 2 ^ 32)
     then 1 else 0)
  ∧ ((160 - last_time entry_at_100) mod 2 ^ 32 < 5 →
     refresh (sys_at 160 fs_files) 5 entry_at_100 thread0
     = Ret (entry_at_100,
            {| errno := last_errno entry_at_100;
               stat_calls := stat_calls thread0 |})
           (last_result entry_at_100))
  ∧ (∀ self1 th1 r1 sys2 now2,
       refresh (sys_at 160 fs_files) 5 entry_at_100 thread0
       = Ret (self1, th1) r1 →
       real_queries thread0 th1 = 1 →
       SystemTime_get sys2 = ClockReads now2 →
       (0 ≤ now2 - 160 < 5 →
        refresh sys2 5 self1 th1 = Ret (self1, th1) r1
        ∧ real_queries th1 (state_of (refresh sys2 5 self1 th1)).2 = 0)
       ∧ (5 ≤ (now2 - 160) mod 2 ^ 32 →
          real_queries th1 (state_of (refresh sys2 5 self1 th1)).2 = 1))
  ∧ (5 = 0 →
     real_queries thread0
       (state_of (refresh (sys_at 160 fs_files) 5 entry_at_100 thread0)).2
     = 1).
Proof.
  apply (refresh_throttle (sys_at 160 fs_files) 5 entry_at_100 thread0 160).
  reflexivity.
Defined.

(** C8, as stated, fails: with [last_time] 100 and the clock at 90 the gap
    of -10 wraps to 2^32 - 10, which is below the throttle interval
    2^32 - 1, and no real query is made. *)
Lemma refresh_backward_clock_not_any_throttle :
  ¬ (∀ sys t self th now,
       0 ≤ t < 2 ^ 32 →
       SystemTime_get sys = ClockReads now →
       now < last_time self →
       real_queries th (state_of (refresh sys t self th)).2 = 1).
Proof.
  intros H.
  specialize (H (sys_at 90 fs_files) 4294967295 entry_at_100 thread0 90
                ltac:(lia) eq_refl ltac:(simpl; lia)).
  vm_compute in H. discriminate H.
Qed.

(** C8, amended: when [last_time] is ahead of the clock by a gap [d] with
    [0 < d < 2^32], the elapsed time, computed as an unsigned value, wraps
    to [2^32 - d], and [refresh] makes a real query exactly when the
    throttle interval is at most [2^32 - d]. *)
Theorem refresh_backward_clock sys t self th now :
  SystemTime_get sys = ClockReads now →
  0 < last_time self - now < 2 ^ 32 →
  elapsed now (last_time self) = 2 ^ 32 - (last_time self - now)
  ∧ (real_queries th (state_of (refresh sys t self th)).2 = 1
     ↔ t ≤ 2 ^ 32 - (last_time self - now)).
Proof.
  intros Hc Hgap. split; [by apply elapsed_backward|].
  erewrite refresh_real_queries by done.
  rewrite elapsed_backward by done.
  case_bool_decide; split; (done || lia).
Qed.

Lemma refresh_backward_clock_witness :
  elapsed 90 (last_time entry_at_100) = 2 ^ 32 - (last_time entry_at_100 - 90)
  ∧ (real_queries thread0
       (state_of (refresh (sys_at 90 fs_files) 5 entry_at_100 thread0)).2 = 1
     ↔ 5 ≤ 2 ^ 32 - (last_time entry_at_100 - 90)).
Proof.
  apply (refresh_backward_clock (sys_at 90 fs_files) 5 entry_at_100 thread0 90).
  - reflexivity.
  - vm_compute. split; reflexivity.
Defined.

(** ** The index of a node list *)

Section index.
Implicit Types (l : list (nat * Entry)) (f : string) (a : nat) (e : Entry).

Lemma index_keys l : ((λ n, (filename n.2, Node n.1)) <$> l).*1 = names l.
Proof. unfold names. rewrite <- list_fmap_compose. done. Qed.

Lemma names_length l : length (names l) = length l.
Proof. unfold names. by rewrite length_fmap. Qed.

Lemma names_app l k : names (l ++ k) = names l ++ names k.
Proof. unfold names. by rewrite fmap_app. Qed.

Lemma elem_of_names l f :
  f ∈ names l ↔ ∃ a e, (a, e) ∈ l ∧ filename e = f.
Proof.
  unfold names. rewrite list_elem_of_fmap. split.
  - intros [[a e] [-> Hin]]. by exists a, e.
  - intros (a & e & Hin & <-). by exists (a, e).
Qed.

Lemma index_lookup_None l f : index_of l !! f = None ↔ f ∉ names l.
Proof.
  unfold index_of. rewrite <- not_elem_of_list_to_map. by rewrite index_keys.
Qed.

Lemma index_lookup_Some l f it :
  NoDup (names l) →
  index_of l !! f = Some it ↔ ∃ a e, (a, e) ∈ l ∧ filename e = f ∧ it = Node a.
Proof.
  intros Hnd. unfold index_of.
  rewrite <- elem_of_list_to_map by (by rewrite index_keys).
  rewrite list_elem_of_fmap. split.
  - intros [[a e] [[= -> ->] Hin]]. by exists a, e.
  - intros (a & e & Hin & <- & ->). by exists (a, e).
Qed.

Lemma index_size l : NoDup (names l) → size (index_of l) = length l.
Proof.
  intros Hnd. unfold index_of.
  rewrite map_size_list_to_map by (by rewrite index_keys).
  by rewrite length_fmap.
Qed.

Lemma index_cons a e l :
  index_of ((a, e) :: l) = <[filename e := Node a]> (index_of l).
Proof. done. Qed.

Lemma index_snoc a e l :
  filename e ∉ names l →
  delete (filename e) (index_of (l ++ [(a, e)])) = index_of l.
Proof.
  intros Hni. unfold index_of. rewrite fmap_snoc; simpl.
  rewrite list_to_map_snoc by (by rewrite index_keys).
  rewrite delete_insert_eq. apply delete_id. by apply index_lookup_None.
Qed.

Lemma index_perm l k :
  NoDup (names l) → l ≡ₚ k → index_of l = index_of k.
Proof.
  intros Hnd Hp. unfold index_of. apply list_to_map_proper.
  - by rewrite index_keys.
  - by apply fmap_Permutation.
Qed.

(** A node with a distinct address splits the list around it. *)
Lemma unlink_split l1 a e l2 :
  NoDup (l1 ++ (a, e) :: l2).*1 →
  unlink a (l1 ++ (a, e) :: l2) = l1 ++ l2
  ∧ deref (l1 ++ (a, e) :: l2) (Node a) = Some e.
Proof.
  rewrite fmap_app, fmap_cons. simpl.
  intros (Hnd1 & Hdisj & [Hni Hnd2]%NoDup_cons)%NoDup_app.
  assert (∀ l, a ∉ l.*1 → filter (λ n : nat * Entry, n.1 ≠ a) l = l
                          ∧ filter (λ n : nat * Entry, n.1 = a) l = [])
    as Hfilter.
  { induction l as [|[b x] l IH]; [done|]. rewrite fmap_cons; simpl.
    intros [Hne Hl]%not_elem_of_cons. destruct (IH Hl) as [IH1 IH2].
    rewrite filter_cons_True by (simpl; congruence).
    rewrite filter_cons_False by (simpl; congruence).
    by rewrite IH1, IH2. }
  assert (a ∉ l1.*1) as Hl1.
  { intros Hin. apply (Hdisj a Hin). by left. }
  destruct (Hfilter l1 Hl1) as [H11 H12].
  destruct (Hfilter l2 Hni) as [H21 H22].
  unfold unlink, deref. rewrite !filter_app.
  rewrite filter_cons_False by (simpl; tauto).
  rewrite filter_cons_True by done.
  by rewrite H11, H12, H21, H22.
Qed.

Lemma fresh_addr_fresh l : fresh_addr l ∉ l.*1.
Proof.
  intros Hin%max_list_elem_of_le. unfold fresh_addr in Hin. lia.
Qed.

Lemma filter_ne_absent f (l : list string) :
  f ∉ l → filter (λ g, g ≠ f) l = l.
Proof.
  induction l as [|g l IH]; [done|].
  intros [Hne Hl]%not_elem_of_cons.
  rewrite filter_cons_True by congruence. by rewrite IH.
Qed.

Lemma filter_ne_split f (l1 l2 : list string) :
  NoDup (l1 ++ f :: l2) →
  filter (λ g, g ≠ f) (l1 ++ f :: l2) = l1 ++ l2.
Proof.
  intros (Hnd1 & Hdisj & [Hni Hnd2]%NoDup_cons)%NoDup_app.
  rewrite filter_app, filter_cons_False by tauto.
  rewrite !filter_ne_absent; [done | done |].
  intros Hin. apply (Hdisj f Hin). by left.
Qed.
End index.

(** ** The structural step of [stat] *)

(** Splits [wf (of_list m l)] into its five parts, stated on [m] and [l]. *)
Ltac wf_of_list :=
  unfold wf, consistent, bounded, of_list;
  cbn [maxSize entries cache];
  split; [split; [|split; [|reflexivity]] | split].

Section locate.
Implicit Types (this : CachedFileStat) (l : list (nat * Entry)).

Lemma consistent_of_list this :
  consistent this → this = of_list (maxSize this) (entries this).
Proof. intros (_ & _ & Hc). destruct this; simpl in *. by subst. Qed.

Lemma names_removelast l : names (removelast l) = removelast (names l).
Proof.
  destruct (decide (l = [])) as [->|Hne]; [done|].
  destruct (proj2 (last_is_Some l) Hne) as [x [k ->]%last_Some].
  rewrite names_app. change (names [x]) with [filename x.2].
  by rewrite !removelast_last.
Qed.

Lemma NoDup_removelast {A} (k : list A) : NoDup k → NoDup (removelast k).
Proof.
  destruct (decide (k = [])) as [->|Hne]; [done|].
  destruct (proj2 (last_is_Some k) Hne) as [x [k' ->]%last_Some].
  rewrite removelast_last. by intros [? _]%NoDup_app.
Qed.

Lemma elem_of_removelast {A} (k : list A) x : x ∈ removelast k → x ∈ k.
Proof.
  destruct (decide (k = [])) as [->|Hne]; [done|].
  destruct (proj2 (last_is_Some k) Hne) as [y [k' ->]%last_Some].
  rewrite removelast_last, elem_of_app. auto.
Qed.

Lemma length_removelast {A} (k : list A) :
  k ≠ [] → S (length (removelast k)) = length k.
Proof.
  intros Hne.
  destruct (proj2 (last_is_Some k) Hne) as [y [k' ->]%last_Some].
  rewrite removelast_last, length_app. simpl. lia.
Qed.

(** Evicting the back of a consistent, non-empty cache. *)
Lemma evict_back_consistent this :
  consistent this → entries this ≠ [] →
  evict_back this = Some (of_list (maxSize this) (removelast (entries this)))
  ∧ consistent (of_list (maxSize this) (removelast (entries this))).
Proof.
  intros (Ha & Hn & Hc) Hne.
  destruct (proj2 (last_is_Some _) Hne) as [[a v] Hlast].
  pose proof Hlast as [l Hl]%last_Some.
  unfold evict_back. rewrite Hlast, Hc, Hl, removelast_last.
  rewrite Hl in Ha, Hn. rewrite names_app in Hn. rewrite fmap_app in Ha.
  apply NoDup_app in Ha as (Ha & _ & _).
  apply NoDup_app in Hn as (Hn & Hdisj & _).
  rewrite index_snoc.
  - done.
  - intros Hin. apply (Hdisj _ Hin). simpl. by left.
Qed.

Lemma evict_back_empty this : entries this = [] → evict_back this = None.
Proof. intros Hl. unfold evict_back. by rewrite Hl. Qed.

(** A miss: the back is evicted when the cache is full, then a new
    entry goes to the front, in a node of its own. *)
Lemma locate_miss fname this :
  wf this → fname ∉ names (entries this) →
  let l := if decide (full (maxSize this) (length (entries this)))
           then removelast (entries this) else entries this in
  locate fname this
  = Some (of_list (maxSize this) ((fresh_addr l, Entry_new fname) :: l),
          Entry_new fname)
  ∧ wf (of_list (maxSize this) ((fresh_addr l, Entry_new fname) :: l)).
Proof.
  intros [Hcons [Hrange Hbound]] Hni l.
  pose proof Hcons as (Ha & Hn & Hc).
  assert (cache this !! fname = None) as Hlook.
  { rewrite Hc. by apply index_lookup_None. }
  assert (size (cache this) = length (entries this)) as Hsize.
  { rewrite Hc. by apply index_size. }
  unfold locate. rewrite Hlook. simpl.
  rewrite Hsize.
  subst l. destruct (decide (full _ _)) as [[Hnz Hfull]|Hnot].
  - assert (entries this ≠ []) as Hne.
    { intros Hnil. rewrite Hnil in Hfull. simpl in Hfull. lia. }
    destruct (evict_back_consistent this Hcons Hne) as [-> (Ha' & Hn' & _)].
    cbn [of_list maxSize entries cache] in *. split; [done|].
    wf_of_list.
    + rewrite fmap_cons. apply NoDup_cons.
      split; [apply fresh_addr_fresh | done].
    + change (NoDup (fname :: names (removelast (entries this)))).
      apply NoDup_cons. split; [|done].
      rewrite names_removelast. intros Hin%elem_of_removelast. done.
    + done.
    + intros _. pose proof (length_removelast _ Hne).
      rewrite length_cons. lia.
  - simpl. rewrite Hc. split; [done|].
    wf_of_list.
    + rewrite fmap_cons. apply NoDup_cons.
      split; [apply fresh_addr_fresh | done].
    + change (NoDup (fname :: names (entries this))).
      apply NoDup_cons. by split.
    + done.
    + intros Hnz. specialize (Hbound Hnz). unfold full in Hnot.
      rewrite length_cons.
      destruct (decide (Z.of_nat (length (entries this)) = maxSize this));
        [tauto | lia].
Qed.

(** A hit: the node of the entry is moved to the front, and the index
    is as before. *)
Lemma locate_hit fname this a entry :
  wf this → (a, entry) ∈ entries this → filename entry = fname →
  locate fname this
  = Some (of_list (maxSize this) ((a, entry) :: unlink a (entries this)),
          entry)
  ∧ wf (of_list (maxSize this) ((a, entry) :: unlink a (entries this)))
  ∧ names ((a, entry) :: unlink a (entries this))
    = fname :: filter (λ g, g ≠ fname) (names (entries this)).
Proof.
  intros [Hcons [Hrange Hbound]] Hin Hf.
  pose proof Hcons as (Ha & Hn & Hc).
  assert (cache this !! fname = Some (Node a)) as Hlook.
  { rewrite Hc. apply index_lookup_Some; [done|]. by exists a, entry. }
  destruct (list_elem_of_split _ _ Hin) as (l1 & l2 & Hl).
  rewrite Hl in Ha. destruct (unlink_split _ _ _ _ Ha) as [Hun Hde].
  rewrite <- Hl in Hun, Hde, Ha.
  assert ((a, entry) :: unlink a (entries this) ≡ₚ entries this) as Hperm.
  { rewrite Hun, Hl. apply Permutation_middle. }
  assert (names ((a, entry) :: unlink a (entries this))
          = fname :: filter (λ g, g ≠ fname) (names (entries this))) as Hnames.
  { rewrite Hun. unfold names at 1. rewrite fmap_cons. simpl. rewrite Hf.
    fold (names (l1 ++ l2)). rewrite Hl, !names_app. simpl.
    rewrite Hf. rewrite filter_ne_split; [done|].
    rewrite Hl, names_app in Hn. simpl in Hn. by rewrite Hf in Hn. }
  split; [|split; [|done]].
  - unfold locate. rewrite Hlook.
    change (default End (Some (Node a))) with (Node a).
    rewrite decide_False by done. rewrite Hde. simpl.
    rewrite insert_id by done. rewrite Hc.
    by rewrite (index_perm (entries this)
                  ((a, entry) :: unlink a (entries this))).
  - wf_of_list.
    + by rewrite Hperm.
    + unfold names. by rewrite Hperm.
    + done.
    + intros Hnz. specialize (Hbound Hnz). by rewrite Hperm.
Qed.

(** The structural step in one statement. *)
Lemma locate_spec fname this :
  wf this →
  ∃ a entry rest,
    locate fname this
    = Some (of_list (maxSize this) ((a, entry) :: rest), entry)
    ∧ wf (of_list (maxSize this) ((a, entry) :: rest))
    ∧ filename entry = fname
    ∧ names ((a, entry) :: rest)
      = touch (maxSize this) fname (names (entries this))
    ∧ (if decide (fname ∈ names (entries this))
       then (a, entry) ∈ entries this ∧ rest = unlink a (entries this)
       else entry = Entry_new fname
            ∧ rest = if decide (full (maxSize this) (length (entries this)))
                     then removelast (entries this) else entries this).
Proof.
  intros Hwf. unfold touch.
  destruct (decide (fname ∈ names (entries this))) as [Hin|Hni].
  - apply elem_of_names in Hin as (a & entry & Hin & Hf).
    destruct (locate_hit fname this a entry Hwf Hin Hf) as (Hl & Hw & Hn).
    exists a, entry, (unlink a (entries this)). done.
  - destruct (locate_miss fname this Hwf Hni) as (Hl & Hw).
    eexists _, _, _. split; [exact Hl|]. split; [exact Hw|].
    split; [done|]. split; [|done].
    rewrite names_length.
    destruct (decide (full _ _)); simpl; [|done].
    by rewrite names_removelast.
Qed.
End locate.

(** ** [stat]: the structural step, then the refresh of the front entry *)

Section stat.
Context (sys : Sys) (fname : string) (throttleRate : Z).
Implicit Types (this : CachedFileStat) (th : Thread).

Lemma store_front_of_list m a entry entry' rest :
  filename entry' = filename entry →
  store_front entry' (of_list m ((a, entry) :: rest))
  = of_list m ((a, entry') :: rest).
Proof.
  intros Hf. unfold store_front, of_list. cbn [maxSize entries cache].
  by rewrite !index_cons, Hf.
Qed.

Lemma wf_store_front m a entry entry' rest :
  filename entry' = filename entry →
  wf (of_list m ((a, entry) :: rest)) →
  wf (of_list m ((a, entry') :: rest)).
Proof.
  intros Hf [(Ha & Hn & _) [Hr Hb]]. cbn [of_list maxSize entries] in *.
  wf_of_list; try done.
  unfold names in *. rewrite fmap_cons in *. simpl in *. by rewrite Hf.
Qed.

(** What [stat] does to a well-formed cache: never undefined; the
    structure after the call is the one [locate] made, with the front
    entry as [refresh] left it. *)
Lemma stat_spec this th :
  wf this →
  ∃ a entry rest,
    locate fname this
    = Some (of_list (maxSize this) ((a, entry) :: rest), entry)
    ∧ filename entry = fname
    ∧ names ((a, entry) :: rest)
      = touch (maxSize this) fname (names (entries this))
    ∧ (if decide (fname ∈ names (entries this))
       then (a, entry) ∈ entries this ∧ rest = unlink a (entries this)
       else entry = Entry_new fname
            ∧ rest = if decide (full (maxSize this) (length (entries this)))
                     then removelast (entries this) else entries this)
    ∧ stat sys fname throttleRate this th
      = Some match refresh sys throttleRate entry th with
             | Throw (entry', th') e =>
                 Throw (of_list (maxSize this) ((a, entry') :: rest), th') e
             | Ret (entry', th') ret =>
                 Ret (of_list (maxSize this) ((a, entry') :: rest), th')
                     (ret, info entry')
             end
    ∧ wf (of_list (maxSize this)
            ((a, (state_of (refresh sys throttleRate entry th)).1) :: rest)).
Proof.
  intros Hwf.
  destruct (locate_spec fname this Hwf)
    as (a & entry & rest & Hl & Hw & Hf & Hn & Hcase).
  exists a, entry, rest. do 4 (split; [done|]).
  pose proof (refresh_filename sys throttleRate entry th) as Hname.
  split.
  - unfold stat. rewrite Hl. simpl.
    destruct (refresh sys throttleRate entry th) as [[e' th'] r|[e' th'] x];
      simpl in Hname; by rewrite store_front_of_list.
  - by eapply wf_store_front.
Qed.

(** [stat] keeps the invariant, keeps the capacity, and orders the
    paths as [touch] says. *)
Lemma stat_wf this th :
  wf this →
  ∃ r, stat sys fname throttleRate this th = Some r
       ∧ wf (state_of r).1
       ∧ maxSize (state_of r).1 = maxSize this
       ∧ names (entries (state_of r).1)
         = touch (maxSize this) fname (names (entries this)).
Proof.
  intros Hwf.
  destruct (stat_spec this th Hwf)
    as (a & entry & rest & _ & Hf & Hn & _ & -> & Hw).
  pose proof (refresh_filename sys throttleRate entry th) as Hname.
  eexists. split; [done|].
  destruct (refresh sys throttleRate entry th) as [[e' th'] r|[e' th'] x];
    cbn [state_of fst snd] in *;
    (split; [exact Hw|]); (split; [reflexivity|]);
    cbn [of_list entries]; rewrite <- Hn;
    unfold names; rewrite !fmap_cons; cbn [snd]; by rewrite Hname.
Qed.
End stat.

(** Membership as [knows] reports it. *)
Lemma knows_names fname this :
  consistent this → knows fname this = true ↔ fname ∈ names (entries this).
Proof.
  intros (_ & Hn & Hc). unfold knows. rewrite bool_decide_eq_true, Hc.
  destruct (index_of (entries this) !! fname) as [it|] eqn:Hlook.
  - apply index_lookup_Some in Hlook as (a & e & Hin & Hf & ->); [|done].
    simpl. split; [intros _|done]. apply elem_of_names. by exists a, e.
  - apply index_lookup_None in Hlook. simpl. split; [done|tauto].
Qed.

Lemma knows_names_false fname this :
  consistent this → knows fname this = false ↔ fname ∉ names (entries this).
Proof.
  intros Hc. rewrite <- (knows_names fname this Hc).
  destruct (knows fname this); split; (done || congruence).
Qed.

Lemma wf_new capacity : 0 ≤ capacity < 2 ^ 32 → wf (CachedFileStat_new capacity).
Proof.
  intros Hr. change (CachedFileStat_new capacity) with (of_list capacity []).
  wf_of_list; try done; try apply NoDup_nil_2. simpl. lia.
Qed.

Lemma wf_cache_ba : wf cache_ba.
Proof. apply (bool_decide_unpack _). vm_compute. exact I. Qed.

(** A [refresh] that throws leaves the entry as it was. *)
Lemma refresh_throw_entry sys t self th self' th' e :
  refresh sys t self th = Throw (self', th') e →
  self' = self
  ∧ errno th' = errno th
  ∧ (SystemTime_get sys = ClockThrows e
     ∨ (e = thread_interrupted ∧ os_stat sys (c_str (filename self)) = StatInterrupted)).
Proof.
  unfold refresh, expired, syscalls_stat.
  destruct (SystemTime_get sys) as [now|x].
  - case_bool_decide; [|done].
    destruct (os_stat sys (c_str (filename self))) eqn:Hs; try done.
    intros [= <- <- <-]. split; [by destruct self|]. split; [done|]. by right.
  - intros [= <- <- <-]. split; [done|]. split; [done|]. by left.
Qed.

(** C1, as stated, fails: a clock failure during a query of "c" on the
    full cache of "b" and "a" leaves a cache from which "a" has been
    evicted and in which "c" is listed first: the order list and the
    index have changed although the call failed. *)
Lemma stat_clock_failure_mutates :
  ¬ (∀ sys fname t this th s e,
       wf this →
       stat sys fname t this th = Some (Throw s e) →
       entries s.1 = entries this ∧ cache s.1 = cache this).
Proof.
  intros H.
  destruct (H (sys_no_clock fs_files) "c" 10 cache_ba thread0 _ _
              wf_cache_ba eq_refl) as [Hentries _].
  vm_compute in Hentries. discriminate Hentries.
Qed.

(** Two entries of a consistent cache with the same path are the same
    entry in the same node. *)
Lemma entry_unique this a e a' e' :
  consistent this →
  (a, e) ∈ entries this → (a', e') ∈ entries this →
  filename e = filename e' →
  (a, e) = (a', e').
Proof.
  intros (_ & Hn & _). unfold names in Hn. revert Hn.
  generalize (entries this). intros l.
  induction l as [|n l IH]; intros Hnd Hin Hin' Hf;
    [by apply elem_of_nil in Hin|].
  rewrite fmap_cons in Hnd. apply NoDup_cons in Hnd as [Hni Hnd].
  apply elem_of_cons in Hin as [Heq|Hin];
    apply elem_of_cons in Hin' as [Heq'|Hin'].
  - congruence.
  - exfalso. apply Hni. apply list_elem_of_fmap. exists (a', e').
    subst n. by split.
  - exfalso. apply Hni. apply list_elem_of_fmap. exists (a, e).
    subst n. by split.
  - by apply IH.
Qed.

(** A triggered refresh logs its one stat(2) call, for the C string of
    the path. *)
Lemma refresh_stale_calls sys t self th now :
  SystemTime_get sys = ClockReads now →
  t ≤ elapsed now (last_time self) →
  stat_calls (state_of (refresh sys t self th)).2
  = stat_calls th ++ [c_str (filename self)].
Proof.
  intros Hc Hle. unfold refresh, expired, syscalls_stat.
  rewrite Hc, bool_decide_eq_true_2 by done.
  by destruct (os_stat sys (c_str (filename self))).
Qed.

(** C1, amended: a failure to read the clock during [stat] propagates to
    the caller as the exception it is, and so does the interruption of
    the stat(2) call of a triggered refresh. Whenever [stat] throws, no
    entry's recorded result, error code, time or snapshot has changed and
    [errno] is as before; the structural step made before the refresh
    stays: the queried path is at the front, on a hit in its own node
    with its own data, the other nodes keeping their order, and on a miss
    as a new entry in its initial state in front of the old list, without
    its last node if the cache was full; the capacity is unchanged, and
    the order list and the index are consistent. *)
Theorem stat_failure_keeps_entries sys fname t this th :
  wf this →
  (∀ e, SystemTime_get sys = ClockThrows e →
        ∃ s, stat sys fname t this th = Some (Throw s e))
  ∧ (∀ now,
       SystemTime_get sys = ClockReads now →
       os_stat sys (c_str fname) = StatInterrupted →
       (knows fname this = false →
        t ≤ now mod 2 ^ 32 →
        ∃ s, stat sys fname t this th = Some (Throw s thread_interrupted))
       ∧ (∀ a e,
            (a, e) ∈ entries this → filename e = fname →
            t ≤ (now - last_time e) mod 2 ^ 32 →
            ∃ s, stat sys fname t this th = Some (Throw s thread_interrupted)))
  ∧ (∀ s e,
       stat sys fname t this th = Some (Throw s e) →
       (SystemTime_get sys = ClockThrows e
        ∨ (e = thread_interrupted
           ∧ os_stat sys (c_str fname) = StatInterrupted))
       ∧ wf s.1
       ∧ maxSize s.1 = maxSize this
       ∧ names (entries s.1)
         = touch (maxSize this) fname (names (entries this))
       ∧ knows fname s.1 = true
       ∧ errno s.2 = errno th
       ∧ ∃ a entry rest,
           entries s.1 = (a, entry) :: rest
           ∧ filename entry = fname
           ∧ (knows fname this = true →
              (a, entry) ∈ entries this ∧ rest = unlink a (entries this))
           ∧ (knows fname this = false →
              entry = Entry_new fname
              ∧ rest = if decide (full (maxSize this) (length (entries this)))
                       then removelast (entries this) else entries this)).
Proof.
  intros Hwf.
  destruct (stat_spec sys fname t this th Hwf)
    as (a & entry & rest & _ & Hf & Hn & Hcase & Hstat & Hw).
  pose proof (knows_names fname this (proj1 Hwf)) as Hk.
  pose proof (knows_names_false fname this (proj1 Hwf)) as Hk'.
  split; [|split].
  - intros e Hc. rewrite Hstat.
    rewrite (refresh_clock_throws _ _ _ _ e) by done. eauto.
  - intros now Hc Hs. rewrite <- Hf in Hs. split.
    + intros Hmiss Hle. apply Hk' in Hmiss.
      rewrite decide_False in Hcase by done. destruct Hcase as [-> _].
      rewrite Hstat. erewrite refresh_stale_interrupted; [eauto | done | | done].
      cbn [Entry_new last_time]. by rewrite elapsed_mod, Z.sub_0_r.
    + intros a' e' Hin' Hf' Hle.
      assert (fname ∈ names (entries this)) as Hin.
      { apply elem_of_names. by exists a', e'. }
      rewrite decide_True in Hcase by done. destruct Hcase as [Hin0 _].
      assert ((a, entry) = (a', e')) as [= -> ->].
      { apply (entry_unique this); [apply Hwf | done | done | congruence]. }
      rewrite Hstat. erewrite refresh_stale_interrupted; [eauto | done | | done].
      by rewrite elapsed_mod.
  - intros s e. rewrite Hstat.
    destruct (refresh sys t entry th) as [[e' th'] r|[e' th'] x] eqn:Hr;
      [done|].
    intros [= <- <-].
    apply refresh_throw_entry in Hr as (-> & Herrno & Hwhy).
    rewrite Hf in Hwhy. cbn [state_of fst snd] in *.
    split; [done|]. split; [done|]. split; [done|]. split; [done|]. split.
    { apply knows_names; [apply Hw|]. cbn [of_list entries].
      unfold names. rewrite fmap_cons. cbn [snd]. rewrite Hf. by left. }
    split; [done|].
    exists a, entry, rest. cbn [of_list entries].
    split; [done|]. split; [done|]. split.
    + intros Hhit. apply Hk in Hhit. by rewrite decide_True in Hcase.
    + intros Hmiss. apply Hk' in Hmiss. by rewrite decide_False in Hcase.
Qed.

Lemma stat_failure_keeps_entries_witness :
  (∀ e, SystemTime_get (sys_no_clock fs_files) = ClockThrows e →
        ∃ s, stat (sys_no_clock fs_files) "a" 10 cache_ba thread0
             = Some (Throw s e))
  ∧ (∀ now,
       SystemTime_get (sys_no_clock fs_files) = ClockReads now →
       os_stat (sys_no_clock fs_files) (c_str "a") = StatInterrupted →
       (knows "a" cache_ba = false →
        10 ≤ now mod 2 ^ 32 →
        ∃ s, stat (sys_no_clock fs_files) "a" 10 cache_ba thread0
             = Some (Throw s thread_interrupted))
       ∧ (∀ a e,
            (a, e) ∈ entries cache_ba → filename e = "a" →
            10 ≤ (now - last_time e) mod 2 ^ 32 →
            ∃ s, stat (sys_no_clock fs_files) "a" 10 cache_ba thread0
                 = Some (Throw s thread_interrupted)))
  ∧ (∀ s e,
       stat (sys_no_clock fs_files) "a" 10 cache_ba thread0
       = Some (Throw s e) →
       (SystemTime_get (sys_no_clock fs_files) = ClockThrows e
        ∨ (e = thread_interrupted
           ∧ os_stat (sys_no_clock fs_files) (c_str "a") = StatInterrupted))
       ∧ wf s.1
       ∧ maxSize s.1 = maxSize cache_ba
       ∧ names (entries s.1)
         = touch (maxSize cache_ba) "a" (names (entries cache_ba))
       ∧ knows "a" s.1 = true
       ∧ errno s.2 = errno thread0
       ∧ ∃ a entry rest,
           entries s.1 = (a, entry) :: rest
           ∧ filename entry = "a"
           ∧ (knows "a" cache_ba = true →
              (a, entry) ∈ entries cache_ba
              ∧ rest = unlink a (entries cache_ba))
           ∧ (knows "a" cache_ba = false →
              entry = Entry_new "a"
              ∧ rest = if decide (full (maxSize cache_ba)
                                    (length (entries cache_ba)))
                       then removelast (entries cache_ba)
                       else entries cache_ba)).
Proof.
  apply (stat_failure_keeps_entries (sys_no_clock fs_files) "a" 10
           cache_ba thread0).
  apply (bool_decide_unpack _). vm_compute. exact I.
Defined.

(** C10: a query for a path that is not in the cache, with a throttle
    interval above the clock value taken as an unsigned integer, makes no
    stat(2) call and returns the initial state of the new entry: result
    -1, [errno] 0 and the all-zero record. *)
Theorem stat_new_path_below_clock sys fname t this th now :
  wf this →
  knows fname this = false →
  SystemTime_get sys = ClockReads now →
  to_uint now < t →
  ∃ s, stat sys fname t this th = Some (Ret s (-1, zero_stat))
       ∧ errno s.2 = 0
       ∧ stat_calls s.2 = stat_calls th
       ∧ real_queries th s.2 = 0.
Proof.
  intros Hwf Hk Hc Hlt.
  apply knows_names_false in Hk; [|apply Hwf].
  destruct (stat_spec sys fname t this th Hwf)
    as (a & entry & rest & _ & _ & _ & Hcase & Hstat & _).
  rewrite decide_False in Hcase by done. destruct Hcase as [-> _].
  rewrite Hstat. erewrite refresh_fresh; [| done |].
  - eexists. split; [done|]. cbn [snd errno stat_calls].
    unfold real_queries. cbn [stat_calls]. split; [done|]. split; [done|]. lia.
  - cbn [Entry_new last_time]. rewrite elapsed_mod.
    unfold to_uint in Hlt. by rewrite Z.sub_0_r.
Qed.

Lemma stat_new_path_below_clock_witness :
  ∃ s, stat (sys_at 7 fs_files) "c" 10 cache_ba thread0
       = Some (Ret s (-1, zero_stat))
       ∧ errno s.2 = 0
       ∧ stat_calls s.2 = stat_calls thread0
       ∧ real_queries thread0 s.2 = 0.
Proof.
  apply (stat_new_path_below_clock (sys_at 7 fs_files) "c" 10
           cache_ba thread0 7).
  - apply (bool_decide_unpack _). vm_compute. exact I.
  - vm_compute. reflexivity.
  - reflexivity.
  - vm_compute. reflexivity.
Defined.

Lemma most_recent_of_list m a entry rest :
  most_recent (filename entry) (of_list m ((a, entry) :: rest)).
Proof.
  exists a, entry, rest. split; [done|]. split; [done|].
  cbn [of_list cache]. rewrite index_cons. apply lookup_insert_eq.
Qed.

(** A hit, wherever the entry is in the list: its node goes to the
    front with the data [refresh] leaves, the other nodes keep their
    order. *)
Lemma stat_hit sys t this th a e :
  wf this →
  (a, e) ∈ entries this →
  stat sys (filename e) t this th
  = Some match refresh sys t e th with
         | Throw (e', th') x =>
             Throw (of_list (maxSize this)
                      ((a, e') :: unlink a (entries this)), th') x
         | Ret (e', th') r =>
             Ret (of_list (maxSize this)
                    ((a, e') :: unlink a (entries this)), th') (r, info e')
         end
  ∧ wf (of_list (maxSize this) ((a, e) :: unlink a (entries this))).
Proof.
  intros Hwf Hin.
  destruct (locate_hit (filename e) this a e Hwf Hin eq_refl) as (Hl & Hw & _).
  split; [|done]. unfold stat. rewrite Hl. cbn [mbind option_bind].
  pose proof (refresh_filename sys t e th) as Hname.
  destruct (refresh sys t e th) as [[e' th'] r|[e' th'] x];
    cbn [state_of fst] in Hname; by rewrite store_front_of_list.
Qed.

(** C9: a query whose real metadata query fails returns the failure as
    data (-1, the code in [errno]) and is cached like a success: the path
    is known and most recently used, its entry recording the failure. A
    later query of the path, wherever its entry then is in the recency
    order, that comes less than the throttle interval after the failed
    query makes no stat(2) call, returns the same failure, code and
    record, and moves the entry's node to the front again; one that comes
    when the interval has elapsed makes a stat(2) call again, and
    promotes the entry as well. *)
Theorem stat_failure_is_cached sys fname t this th now s ret buf code :
  wf this →
  SystemTime_get sys = ClockReads now →
  os_stat sys (c_str fname) = StatFail code →
  stat sys fname t this th = Some (Ret s (ret, buf)) →
  real_queries th s.2 = 1 →
  ret = -1
  ∧ errno s.2 = code
  ∧ wf s.1
  ∧ knows fname s.1 = true
  ∧ most_recent fname s.1
  ∧ names (entries s.1) = touch (maxSize this) fname (names (entries this))
  ∧ ∃ a e rest,
      entries s.1 = (a, e) :: rest
      ∧ filename e = fname
      ∧ ∀ this2 sys2 now2 t2 th2,
          wf this2 →
          (a, e) ∈ entries this2 →
          SystemTime_get sys2 = ClockReads now2 →
          (0 ≤ now2 - now < t2 →
           ∃ s2, stat sys2 fname t2 this2 th2 = Some (Ret s2 (-1, buf))
                 ∧ errno s2.2 = code
                 ∧ stat_calls s2.2 = stat_calls th2
                 ∧ knows fname s2.1 = true
                 ∧ most_recent fname s2.1
                 ∧ entries s2.1 = (a, e) :: unlink a (entries this2))
          ∧ (t2 ≤ now2 - now < 2 ^ 32 →
             ∃ r2 e2, stat sys2 fname t2 this2 th2 = Some r2
                      ∧ stat_calls (state_of r2).2
                        = stat_calls th2 ++ [c_str fname]
                      ∧ most_recent fname (state_of r2).1
                      ∧ entries (state_of r2).1
                        = (a, e2) :: unlink a (entries this2)).
Proof.
  intros Hwf Hc Hs Hstat Hq.
  destruct (stat_spec sys fname t this th Hwf)
    as (a & entry & rest & _ & Hf & Hn & _ & Hstat' & Hw).
  rewrite Hstat in Hstat'.
  pose proof (refresh_real_queries sys t entry th now Hc) as Hcount.
  case_bool_decide as Hle.
  2:{ erewrite refresh_fresh in Hstat' by (done || lia).
      injection Hstat' as -> _ _. unfold real_queries in Hq. simpl in Hq. lia. }
  rewrite <- Hf in Hs.
  erewrite refresh_stale_fail in Hstat', Hw by done.
  injection Hstat' as -> -> ->. cbn [state_of fst snd errno] in *.
  set (entry' := {| last_result := -1; last_errno := code; last_time := now;
                    info := info entry; filename := filename entry |}) in *.
  assert (filename entry' = fname) as Hf' by done.
  split; [done|]. split; [done|]. split; [done|].
  assert (∀ m b e l, filename e = fname →
            wf (of_list m ((b, e) :: l)) →
            knows fname (of_list m ((b, e) :: l)) = true) as Hknown.
  { intros m b e l He Hwf'. apply knows_names; [apply Hwf'|].
    cbn [of_list entries]. unfold names. rewrite fmap_cons. cbn [snd].
    rewrite He. by left. }
  split; [by apply Hknown|].
  split; [rewrite <- Hf'; apply most_recent_of_list|].
  split.
  { cbn [of_list entries]. rewrite <- Hn. unfold names.
    by rewrite !fmap_cons. }
  exists a, entry', rest. cbn [of_list entries].
  split; [done|]. split; [done|].
  intros this2 sys2 now2 t2 th2 Hwf2 Hin2 Hc2.
  destruct (stat_hit sys2 t2 this2 th2 a entry' Hwf2 Hin2) as [Hstat2 Hw2].
  rewrite Hf' in Hstat2. rewrite Hstat2. split.
  - intros Hwin.
    assert (elapsed now2 (last_time entry') < t2) as Hlt.
    { cbn [entry' last_time]. pose proof (elapsed_le now2 now). lia. }
    erewrite refresh_fresh by done.
    eexists. split; [done|]. cbn [fst snd errno stat_calls].
    split; [done|]. split; [done|].
    split; [by apply Hknown|].
    split; [|done]. rewrite <- Hf'. apply most_recent_of_list.
  - intros Hout.
    assert (t2 ≤ elapsed now2 (last_time entry')) as Hle2.
    { cbn [entry' last_time]. destruct (decide (0 ≤ now2 - now)).
      - rewrite elapsed_forward; lia.
      - pose proof (elapsed_range now2 now). lia. }
    pose proof (refresh_stale_calls sys2 t2 entry' th2 now2 Hc2 Hle2) as Hcalls.
    pose proof (refresh_filename sys2 t2 entry' th2) as Hname.
    rewrite Hf' in Hname, Hcalls.
    eexists _, (state_of (refresh sys2 t2 entry' th2)).1. split; [done|].
    destruct (refresh sys2 t2 entry' th2) as [[e2 th2'] r|[e2 th2'] x];
      cbn [state_of fst snd of_list entries] in *;
      (split; [done|]); (split; [|done]);
      rewrite <- Hname; apply most_recent_of_list.
Qed.

Lemma stat_failure_is_cached_witness :
  ∃ s ret buf,
    stat (sys_at 160 fs_missing) "a" 5 cache_ba thread0
    = Some (Ret s (ret, buf))
    ∧ ret = -1
    ∧ errno s.2 = 2
    ∧ wf s.1
    ∧ knows "a" s.1 = true
    ∧ most_recent "a" s.1
    ∧ names (entries s.1)
      = touch (maxSize cache_ba) "a" (names (entries cache_ba))
    ∧ ∃ a e rest,
        entries s.1 = (a, e) :: rest
        ∧ filename e = "a"
        ∧ ∀ this2 sys2 now2 t2 th2,
            wf this2 →
            (a, e) ∈ entries this2 →
            SystemTime_get sys2 = ClockReads now2 →
            (0 ≤ now2 - 160 < t2 →
             ∃ s2, stat sys2 "a" t2 this2 th2 = Some (Ret s2 (-1, buf))
                   ∧ errno s2.2 = 2
                   ∧ stat_calls s2.2 = stat_calls th2
                   ∧ knows "a" s2.1 = true
                   ∧ most_recent "a" s2.1
                   ∧ entries s2.1 = (a, e) :: unlink a (entries this2))
            ∧ (t2 ≤ now2 - 160 < 2 ^ 32 →
               ∃ r2 e2, stat sys2 "a" t2 this2 th2 = Some r2
                        ∧ stat_calls (state_of r2).2
                          = stat_calls th2 ++ [c_str "a"]
                        ∧ most_recent "a" (state_of r2).1
                        ∧ entries (state_of r2).1
                          = (a, e2) :: unlink a (entries this2)).
Proof.
  eexists _, _, _. split; [reflexivity|].
  apply (stat_failure_is_cached (sys_at 160 fs_missing) "a" 5
           cache_ba thread0 160 _ _ _ 2).
  - apply (bool_decide_unpack _). vm_compute. exact I.
  - reflexivity.
  - reflexivity.
  - reflexivity.
  - vm_compute. reflexivity.
Defined.

(** ** Runs of queries and the recency order *)

Lemma run_queries qs this th :
  wf this →
  ∃ s, run (queries qs) (this, th) = Some s
       ∧ wf s.1
       ∧ maxSize s.1 = maxSize this
       ∧ names (entries s.1)
         = touches (maxSize this) (paths qs) (names (entries this)).
Proof.
  revert this th. induction qs as [|[[sys f] t] qs IH]; intros this th Hwf.
  - exists (this, th). done.
  - destruct (stat_wf sys f t this th Hwf) as (r & Hr & Hw & Hm & Hn).
    destruct (IH (state_of r).1 (state_of r).2 Hw) as (s & Hs & Hw' & Hm' & Hn').
    exists s. split.
    + cbn [queries fmap list_fmap run step fst snd]. rewrite Hr.
      cbn [fmap option_fmap option_map mbind option_bind].
      by destruct (state_of r).
    + split; [done|]. split; [congruence|].
      rewrite Hn', Hm, Hn. done.
Qed.

Section touch.
Context (capacity : Z).
Implicit Types (f g : string) (l : list string).

Lemma touch_hit f l : f ∈ l → touch capacity f l = f :: filter (λ g, g ≠ f) l.
Proof. intros Hin. unfold touch. by rewrite decide_True. Qed.

Lemma touch_miss_full f l :
  f ∉ l → full capacity (length l) →
  touch capacity f l = f :: removelast l.
Proof.
  intros Hni Hfull. unfold touch. by rewrite decide_False, decide_True.
Qed.

Lemma touch_miss_room f l :
  f ∉ l → ¬ full capacity (length l) → touch capacity f l = f :: l.
Proof.
  intros Hni Hfull. unfold touch. by rewrite !decide_False.
Qed.

Lemma touch_front f l : ∃ k, touch capacity f l = f :: k.
Proof. unfold touch. repeat case_decide; eauto. Qed.

Lemma touches_snoc fs f l :
  touches capacity (fs ++ [f]) l = touch capacity f (touches capacity fs l).
Proof. unfold touches. by rewrite foldl_app. Qed.

(** Distinct new paths that fit are stacked in front, newest first. *)
Lemma touches_room fs l :
  NoDup fs → (∀ f, f ∈ fs → f ∉ l) →
  (capacity ≠ 0 → Z.of_nat (length l + length fs) ≤ capacity) →
  touches capacity fs l = reverse fs ++ l.
Proof.
  revert l. induction fs as [|f fs IH]; intros l Hnd Hdisj Hfit; [done|].
  apply NoDup_cons in Hnd as [Hni Hnd].
  change (touches capacity (f :: fs) l)
    with (touches capacity fs (touch capacity f l)).
  rewrite touch_miss_room.
  - rewrite IH; [by rewrite reverse_cons, <- app_assoc | done | |].
    + intros g Hg [->|Hin]%elem_of_cons; [done|].
      apply (Hdisj g); [by right | done].
    + intros Hnz. specialize (Hfit Hnz). simpl in *. lia.
  - apply Hdisj. by left.
  - intros [Hnz Hfull]. specialize (Hfit Hnz). simpl in Hfit. lia.
Qed.
End touch.

(** C5: a query that misses on a full cache evicts the last path of the
    recency order and no other; so, from an empty cache of capacity
    [C > 0], queries of [C + 1] distinct paths [p1 :: rest] in this order
    leave a cache that does not know [p1] and knows every path of [rest],
    the latest query first. *)
Theorem lru_eviction_order C qs p1 rest th :
  0 < C < 2 ^ 32 →
  paths qs = p1 :: rest →
  NoDup (p1 :: rest) →
  length rest = Z.to_nat C →
  (∀ this sys f t th',
     wf this → knows f this = false →
     full (maxSize this) (length (entries this)) →
     ∃ r, stat sys f t this th' = Some r
          ∧ names (entries (state_of r).1)
            = f :: removelast (names (entries this)))
  ∧ ∃ s, run (queries qs) (CachedFileStat_new C, th) = Some s
         ∧ knows p1 s.1 = false
         ∧ (∀ p, p ∈ rest → knows p s.1 = true)
         ∧ names (entries s.1) = reverse rest.
Proof.
  intros HC Hpaths Hnd Hlen. split.
  - intros this sys f t th' Hwf Hk Hfull.
    apply knows_names_false in Hk; [|apply Hwf].
    destruct (stat_wf sys f t this th' Hwf) as (r & Hr & _ & _ & Hn).
    exists r. split; [done|]. rewrite Hn.
    apply touch_miss_full; [done|]. by rewrite names_length.
  - destruct (run_queries qs (CachedFileStat_new C) th) as (s & Hs & Hw & _ & Hn).
    { apply wf_new. lia. }
    cbn [CachedFileStat_new maxSize entries] in Hn.
    change (names []) with (@nil string) in Hn. rewrite Hpaths in Hn.
    assert (rest ≠ []) as Hne.
    { intros ->. simpl in Hlen. lia. }
    destruct (proj2 (last_is_Some rest) Hne) as [x [mid ->]%last_Some].
    rewrite length_app in Hlen. simpl in Hlen.
    apply NoDup_cons in Hnd as [Hp1 Hnd].
    pose proof Hnd as (Hmid & Hdisj & _)%NoDup_app.
    rewrite app_comm_cons, touches_snoc in Hn.
    rewrite touches_room in Hn.
    + rewrite app_nil_r, reverse_cons in Hn.
      rewrite touch_miss_full in Hn.
      * rewrite removelast_last in Hn.
        assert (names (entries s.1) = reverse (mid ++ [x])) as Hrev.
        { by rewrite reverse_snoc. }
        exists s. split; [done|]. split; [|split; [|done]].
        -- apply knows_names_false; [apply Hw|]. rewrite Hrev.
           by rewrite elem_of_reverse.
        -- intros p Hp. apply knows_names; [apply Hw|]. rewrite Hrev.
           by rewrite elem_of_reverse.
      * rewrite elem_of_app, elem_of_reverse.
        intros [Hin|Hin%list_elem_of_singleton].
        -- apply (Hdisj x Hin). by left.
        -- subst x. apply Hp1. rewrite elem_of_app. right. by left.
      * split; [lia|]. rewrite length_app, length_reverse. simpl. lia.
    + apply NoDup_cons. split; [|done].
      intros Hin. apply Hp1. rewrite elem_of_app. by left.
    + intros f _. apply not_elem_of_nil.
    + intros _. simpl. lia.
Qed.

Lemma lru_eviction_order_witness :
  (∀ this sys f t th',
     wf this → knows f this = false →
     full (maxSize this) (length (entries this)) →
     ∃ r, stat sys f t this th' = Some r
          ∧ names (entries (state_of r).1)
            = f :: removelast (names (entries this)))
  ∧ ∃ s, run (queries queries_abc) (CachedFileStat_new 2, thread0) = Some s
         ∧ knows "A" s.1 = false
         ∧ (∀ p, p ∈ ["B"; "C"] → knows p s.1 = true)
         ∧ names (entries s.1) = reverse ["B"; "C"].
Proof.
  apply (lru_eviction_order 2 queries_abc "A" ["B"; "C"] thread0).
  - lia.
  - reflexivity.
  - apply (bool_decide_unpack _). vm_compute. exact I.
  - reflexivity.
Defined.

(** ** An entry near the front survives *)

Section survive.
Context (capacity : Z) (p : string).
Implicit Types (f q : string) (l pre suf T : list string).

Lemma touch_NoDup f l : NoDup l → NoDup (touch capacity f l).
Proof.
  intros Hnd. unfold touch. repeat case_decide; apply NoDup_cons.
  - split; [|by apply NoDup_filter].
    intros [Hne _]%list_elem_of_filter. done.
  - split; [|by apply NoDup_removelast].
    intros Hin%elem_of_removelast. done.
  - done.
Qed.

Lemma touch_bound f l :
  capacity ≠ 0 →
  Z.of_nat (length l) ≤ capacity →
  Z.of_nat (length (touch capacity f l)) ≤ capacity.
Proof.
  intros Hnz Hle. unfold touch.
  destruct (decide (f ∈ l)) as [Hin|Hni];
    [|destruct (decide (full capacity (length l))) as [[_ Hfull]|Hroom]];
    rewrite length_cons.
  - assert (length (filter (λ g, g ≠ f) l) < length l)%nat; [|lia].
    apply (length_filter_lt _ _ f); [done | tauto].
  - assert (l ≠ []) as Hne.
    { intros ->. simpl in Hfull. lia. }
    pose proof (length_removelast l Hne). lia.
  - unfold full in Hroom.
    destruct (decide (Z.of_nat (length l) = capacity)); [tauto | lia].
Qed.

(** While the paths in front of [p] number fewer than the capacity, a
    miss never finds [p] last in a full cache. The paths in front of
    [p] are among [T], the paths queried since [p] was at the front. *)
Lemma touches_survive qs : ∀ l pre suf T,
  capacity ≠ 0 →
  NoDup l →
  Z.of_nat (length l) ≤ capacity →
  l = pre ++ p :: suf →
  (∀ x, x ∈ pre → x ∈ T) →
  (∀ S, NoDup S → (∀ x, x ∈ S → x ≠ p ∧ (x ∈ T ∨ x ∈ qs)) →
        Z.of_nat (length S) ≤ capacity - 1) →
  p ∈ touches capacity qs l.
Proof.
  induction qs as [|q qs IH]; intros l pre suf T Hnz Hnd Hlen Hl Hpre Hfew.
  { rewrite Hl. simpl. rewrite elem_of_app. right. by left. }
  change (touches capacity (q :: qs) l)
    with (touches capacity qs (touch capacity q l)).
  assert (∀ S, NoDup S →
            (∀ x, x ∈ S → x ≠ p ∧ (x ∈ q :: T ∨ x ∈ qs)) →
            Z.of_nat (length S) ≤ capacity - 1) as Hfew'.
  { intros S HS Hx. apply Hfew; [done|]. intros x Hin.
    destruct (Hx x Hin) as [Hne [[->|HT]%elem_of_cons|Hq]].
    - split; [done|]. right. by left.
    - split; [done|]. by left.
    - split; [done|]. right. by right. }
  pose proof (touch_NoDup q l Hnd) as Hnd'.
  pose proof (touch_bound q l Hnz Hlen) as Hlen'.
  pose proof Hnd as Hsplit. rewrite Hl in Hsplit.
  apply NoDup_app in Hsplit as (Hndpre & Hdisj & [Hpsuf Hndsuf]%NoDup_cons).
  assert (p ∉ pre) as Hppre.
  { intros Hin. apply (Hdisj p Hin). by left. }
  destruct (decide (q = p)) as [->|Hqp].
  { eapply (IH _ [] _ (p :: T)); try done.
    - rewrite touch_hit; [done|]. rewrite Hl, elem_of_app. right. by left.
    - intros x Hx. by apply elem_of_nil in Hx. }
  destruct (decide (q ∈ l)) as [Hin|Hni].
  { eapply (IH _ (q :: filter (λ g, g ≠ q) pre) (filter (λ g, g ≠ q) suf)
              (q :: T)); try done.
    - rewrite touch_hit by done. rewrite Hl, filter_app.
      rewrite filter_cons_True by congruence. done.
    - intros x [->|[_ Hx]%list_elem_of_filter]%elem_of_cons;
        [by left | right; by apply Hpre]. }
  destruct (decide (full capacity (length l))) as [Hfull|Hroom].
  2:{ eapply (IH _ (q :: pre) suf (q :: T)); try done.
      - rewrite touch_miss_room by done. by rewrite Hl.
      - intros x [->|Hx]%elem_of_cons; [by left | right; by apply Hpre]. }
  rewrite touch_miss_full in Hnd', Hlen' |- * by done.
  destruct suf as [|y suf].
  - exfalso.
    assert (Z.of_nat (length (q :: pre)) ≤ capacity - 1) as Hcontra.
    { apply Hfew.
      - apply NoDup_cons. split; [|done].
        intros Hq. apply Hni. rewrite Hl, elem_of_app. by left.
      - intros x [->|Hx]%elem_of_cons.
        + split; [done|]. right. by left.
        + split; [congruence|]. left. by apply Hpre. }
    destruct Hfull as [_ Hfull]. rewrite Hl, length_app in Hfull.
    simpl in *. lia.
  - eapply (IH _ (q :: pre) (removelast (y :: suf)) (q :: T)); try done.
    + rewrite Hl. rewrite removelast_app by done.
      change (removelast (p :: y :: suf)) with (p :: removelast (y :: suf)).
      done.
    + intros x [->|Hx]%elem_of_cons; [by left | right; by apply Hpre].
Qed.
End survive.

(** C6: a query for a path the cache knows moves its node to the front of
    the recency order, the other nodes keeping their order, and the index
    gives the front node for the path; and when the capacity [C] is not
    zero, the path is still known after any further queries that ask for
    at most [C - 1] distinct other paths. *)
Theorem requery_promotes_and_protects sys p t this th :
  wf this →
  knows p this = true →
  ∃ r, stat sys p t this th = Some r
       ∧ wf (state_of r).1
       ∧ most_recent p (state_of r).1
       ∧ cache (state_of r).1 !! p = Some (list_begin (entries (state_of r).1))
       ∧ (∃ a old new,
            (a, old) ∈ entries this
            ∧ filename old = p
            ∧ entries (state_of r).1 = (a, new) :: unlink a (entries this))
       ∧ names (entries (state_of r).1)
         = p :: filter (λ g, g ≠ p) (names (entries this))
       ∧ (maxSize this ≠ 0 →
          ∀ qs,
            Z.of_nat (length (remove_dups (filter (λ q, q ≠ p) (paths qs))))
            ≤ maxSize this - 1 →
            ∃ s, run (queries qs) (state_of r) = Some s
                 ∧ knows p s.1 = true).
Proof.
  intros Hwf Hk.
  apply knows_names in Hk; [|apply Hwf].
  destruct (stat_spec sys p t this th Hwf)
    as (a & entry & rest & _ & Hf & Hn & Hcase & Hstat & Hw).
  rewrite decide_True in Hcase by done. destruct Hcase as [Hin ->].
  rewrite touch_hit in Hn by done.
  pose proof (refresh_filename sys t entry th) as Hname.
  set (new := (state_of (refresh sys t entry th)).1) in *.
  set (r := match refresh sys t entry th with
            | Ret (entry', th') ret =>
                Ret (of_list (maxSize this)
                       ((a, entry') :: unlink a (entries this)), th')
                    (ret, info entry')
            | Throw (entry', th') e =>
                Throw (of_list (maxSize this)
                         ((a, entry') :: unlink a (entries this)), th') e
            end) in *.
  assert ((state_of r).1
          = of_list (maxSize this) ((a, new) :: unlink a (entries this)))
    as Hstate.
  { subst r new. by destruct (refresh sys t entry th) as [[? ?] ?|[? ?] ?]. }
  assert (names ((a, new) :: unlink a (entries this))
          = p :: filter (λ g, g ≠ p) (names (entries this))) as Hn'.
  { rewrite <- Hn. unfold names. rewrite !fmap_cons. cbn [snd].
    by rewrite Hname. }
  exists r. split; [done|]. rewrite Hstate.
  split; [done|].
  split; [rewrite <- Hf, <- Hname; apply most_recent_of_list|].
  split.
  { cbn [of_list cache entries list_begin]. rewrite index_cons.
    rewrite Hname, Hf. apply lookup_insert_eq. }
  split; [by exists a, entry, new|].
  split; [done|].
  intros Hnz qs Hfew.
  destruct (run_queries qs (state_of r).1 (state_of r).2) as (s & Hs & Hw' & _ & Hns).
  { by rewrite Hstate. }
  exists s. split; [by destruct (state_of r)|].
  apply knows_names; [apply Hw'|]. rewrite Hns, Hstate.
  cbn [of_list maxSize entries]. rewrite Hn'.
  destruct Hw as [(_ & Hnd & _) [_ Hb]]. cbn [of_list maxSize entries] in *.
  eapply (touches_survive _ p _ _ [] _ []); try done.
  - by rewrite <- Hn'.
  - rewrite <- Hn', names_length. by apply Hb.
  - intros S HS Hx.
    assert (S ⊆+ remove_dups (filter (λ q, q ≠ p) (paths qs))) as Hsub.
    { apply NoDup_submseteq; [done|]. intros x Hin'.
      destruct (Hx x Hin') as [Hne [Hnil|Hq]]; [by apply elem_of_nil in Hnil|].
      apply elem_of_remove_dups, list_elem_of_filter. done. }
    apply submseteq_length in Hsub. lia.
Qed.

Lemma requery_promotes_and_protects_witness :
  ∃ r, stat (sys_at 160 fs_files) "a" 5 cache_ba thread0 = Some r
       ∧ wf (state_of r).1
       ∧ most_recent "a" (state_of r).1
       ∧ cache (state_of r).1 !! "a"
         = Some (list_begin (entries (state_of r).1))
       ∧ (∃ a old new,
            (a, old) ∈ entries cache_ba
            ∧ filename old = "a"
            ∧ entries (state_of r).1 = (a, new) :: unlink a (entries cache_ba))
       ∧ names (entries (state_of r).1)
         = "a" :: filter (λ g, g ≠ "a") (names (entries cache_ba))
       ∧ (maxSize cache_ba ≠ 0 →
          ∀ qs,
            Z.of_nat (length (remove_dups (filter (λ q, q ≠ "a") (paths qs))))
            ≤ maxSize cache_ba - 1 →
            ∃ s, run (queries qs) (state_of r) = Some s
                 ∧ knows "a" s.1 = true).
Proof.
  apply (requery_promotes_and_protects (sys_at 160 fs_files) "a" 5
           cache_ba thread0).
  - apply (bool_decide_unpack _). vm_compute. exact I.
  - vm_compute. reflexivity.
Defined.

(** ** [setMaxSize] *)

Section setMaxSize.
Implicit Types (this : CachedFileStat) (n : Z) (k : nat).

Lemma to_int_to_uint z : - 2 ^ 31 ≤ z < 2 ^ 31 → to_int (to_uint z) = z.
Proof.
  intros Hz. unfold to_int, to_uint.
  rewrite Zplus_mod_idemp_l. rewrite Z.mod_small; lia.
Qed.

(** Above the [int] range the difference comes out 2^32 too large. *)
Lemma to_int_to_uint_low z :
  - 2 ^ 32 < z < - 2 ^ 31 → to_int (to_uint z) = z + 2 ^ 32.
Proof.
  intros Hz. unfold to_int, to_uint. rewrite Zplus_mod_idemp_l.
  replace (z + 2 ^ 31) with (z + 2 ^ 32 + 2 ^ 31 + (-1) * 2 ^ 32) by lia.
  rewrite Z_mod_plus_full. rewrite Z.mod_small; lia.
Qed.

Lemma to_int_to_uint_high z :
  2 ^ 31 ≤ z < 2 ^ 32 → to_int (to_uint z) = z - 2 ^ 32.
Proof.
  intros Hz. unfold to_int, to_uint. rewrite Zplus_mod_idemp_l.
  replace (z + 2 ^ 31) with (z - 2 ^ 31 + 1 * 2 ^ 32) by lia.
  rewrite Z_mod_plus_full. rewrite Z.mod_small; lia.
Qed.

Lemma consistent_size this :
  consistent this → size (cache this) = length (entries this).
Proof. intros (_ & Hn & ->). by apply index_size. Qed.

Lemma pop_oldest_take k : ∀ this,
  consistent this → (k ≤ length (entries this))%nat →
  pop_oldest k this
  = Some (of_list (maxSize this)
            (take (length (entries this) - k) (entries this)))
  ∧ consistent (of_list (maxSize this)
                  (take (length (entries this) - k) (entries this))).
Proof.
  induction k as [|k IH]; intros this Hc Hk.
  - rewrite Nat.sub_0_r, firstn_all. cbn [pop_oldest].
    rewrite <- (consistent_of_list this Hc). done.
  - assert (entries this ≠ []) as Hne.
    { intros Hnil. rewrite Hnil in Hk. simpl in Hk. lia. }
    destruct (evict_back_consistent this Hc Hne) as [He Hc'].
    pose proof (length_removelast _ Hne) as Hlen.
    cbn [pop_oldest]. rewrite He. cbn [mbind option_bind].
    destruct (IH _ Hc') as [Hp Hc'']; cbn [of_list entries maxSize] in *.
    { lia. }
    rewrite removelast_firstn_len, take_take in Hp, Hc''.
    rewrite length_take in Hp, Hc''.
    replace ((Init.Nat.pred (length (entries this))
              `min` length (entries this) - k)
             `min` Init.Nat.pred (length (entries this)))%nat
      with (length (entries this) - S k)%nat in Hp, Hc'' by lia.
    by rewrite removelast_firstn_len.
Qed.

Lemma pop_oldest_beyond k : ∀ this,
  consistent this → (length (entries this) < k)%nat →
  pop_oldest k this = None.
Proof.
  induction k as [|k IH]; intros this Hc Hk; [lia|].
  cbn [pop_oldest].
  destruct (decide (entries this = [])) as [Hnil|Hne].
  - by rewrite evict_back_empty.
  - destruct (evict_back_consistent this Hc Hne) as [-> Hc'].
    cbn [mbind option_bind]. apply IH; [done|].
    pose proof (length_removelast _ Hne). cbn [of_list entries]. lia.
Qed.

(** Within the [int] range [setMaxSize] keeps the [n] most recently
    used entries when [n] is not zero and below the size, and all the
    entries otherwise. *)
Lemma setMaxSize_spec n this :
  consistent this →
  0 ≤ n < 2 ^ 32 →
  - 2 ^ 31 ≤ Z.of_nat (length (entries this)) - n < 2 ^ 31 →
  let l := if decide (n ≠ 0 ∧ n < Z.of_nat (length (entries this)))
           then take (Z.to_nat n) (entries this) else entries this in
  setMaxSize n this = Some (of_list n l) ∧ wf (of_list n l).
Proof.
  intros Hc Hn Hint l. pose proof Hc as (Ha & Hnd & Hcache).
  assert (toRemove this n = Z.of_nat (length (entries this)) - n) as Hrem.
  { unfold toRemove. rewrite consistent_size by done.
    by apply to_int_to_uint. }
  unfold setMaxSize. rewrite Hrem. subst l.
  destruct (decide (n ≠ 0)) as [Hnz|Hz].
  - destruct (pop_oldest_take
                (Z.to_nat (Z.of_nat (length (entries this)) - n)) this Hc)
      as [-> (Ha' & Hnd' & _)]; [lia|].
    cbn [mbind option_bind of_list entries cache maxSize] in *.
    destruct (decide (n ≠ 0 ∧ n < Z.of_nat (length (entries this))))
      as [[_ Hlt]|Hge].
    + replace (length (entries this)
               - Z.to_nat (Z.of_nat (length (entries this)) - n))%nat
        with (Z.to_nat n) in * by lia.
      split; [done|]. wf_of_list; try done.
      intros _. rewrite length_take. lia.
    + replace (length (entries this)
               - Z.to_nat (Z.of_nat (length (entries this)) - n))%nat
        with (length (entries this)) in * by lia.
      rewrite firstn_all in *.
      split; [done|]. wf_of_list; try done. intros _. lia.
  - rewrite decide_False by tauto. cbn [mbind option_bind].
    rewrite Hcache. split; [done|]. wf_of_list; done.
Qed.

(** A capacity more than 2^31 above the size makes [toRemove] exceed the
    size: the loop empties the list and then reads the back of the empty
    list. *)
Lemma setMaxSize_overflow n this :
  consistent this →
  0 ≤ n < 2 ^ 32 →
  2 ^ 31 < n - Z.of_nat (length (entries this)) →
  toRemove this n = Z.of_nat (length (entries this)) + (2 ^ 32 - n)
  ∧ pop_oldest (length (entries this)) this = Some (of_list (maxSize this) [])
  ∧ setMaxSize n this = None.
Proof.
  intros Hc Hn Hbig.
  assert (toRemove this n = Z.of_nat (length (entries this)) + (2 ^ 32 - n))
    as Hrem.
  { unfold toRemove. rewrite consistent_size by done.
    rewrite to_int_to_uint_low; lia. }
  split; [done|]. split.
  - destruct (pop_oldest_take (length (entries this)) this Hc) as [-> _];
      [lia|]. by rewrite Nat.sub_diag.
  - unfold setMaxSize. rewrite decide_True by lia. rewrite Hrem.
    rewrite pop_oldest_beyond; [done | done | lia].
Qed.

(** A size 2^31 or more above the capacity makes [toRemove] negative:
    nothing is evicted and the size stays above the capacity. *)
Lemma setMaxSize_underflow n this :
  consistent this →
  0 < n < 2 ^ 32 →
  2 ^ 31 ≤ Z.of_nat (length (entries this)) - n < 2 ^ 32 →
  setMaxSize n this = Some (of_list n (entries this)).
Proof.
  intros Hc Hn Hbig. pose proof Hc as (_ & _ & Hcache).
  unfold setMaxSize, toRemove. rewrite decide_True by lia.
  rewrite consistent_size by done.
  rewrite to_int_to_uint_high by done.
  replace (Z.to_nat (Z.of_nat (length (entries this)) - n - 2 ^ 32))
    with 0%nat by lia.
  cbn [pop_oldest mbind option_bind]. by rewrite Hcache.
Qed.
End setMaxSize.

Lemma touch_length_le capacity f l :
  (length (touch capacity f l) ≤ S (length l))%nat.
Proof.
  unfold touch. repeat case_decide; rewrite length_cons.
  - pose proof (length_filter (λ g, g ≠ f) l). lia.
  - destruct (decide (l = [])) as [->|Hne]; [simpl; lia|].
    pose proof (length_removelast l Hne). lia.
  - lia.
Qed.

(** On runs that stay within the [int] range the invariant holds after
    every operation: the order list and the index have the same size,
    which a capacity other than zero bounds. *)
Lemma run_wf ops : ∀ this th,
  wf this →
  Forall op_in_range ops →
  Z.of_nat (length (entries this) + length ops) < 2 ^ 31 →
  ∃ s, run ops (this, th) = Some s
       ∧ wf s.1
       ∧ size (cache s.1) = length (entries s.1)
       ∧ (maxSize s.1 ≠ 0 → Z.of_nat (size (cache s.1)) ≤ maxSize s.1).
Proof.
  induction ops as [|op ops IH]; intros this th Hwf Hops Hlen.
  - exists (this, th). split; [done|]. split; [done|].
    rewrite consistent_size by apply Hwf. split; [done|]. apply Hwf.
  - apply Forall_cons in Hops as [Hop Hops]. simpl in Hlen.
    destruct op as [sys f t|n].
    + destruct (stat_wf sys f t this th Hwf) as (r & Hr & Hw & _ & Hn).
      destruct (IH (state_of r).1 (state_of r).2 Hw Hops) as (s & Hs & Hrest).
      * pose proof (touch_length_le (maxSize this) f (names (entries this))).
        rewrite <- Hn, !names_length in *. lia.
      * exists s. split; [|done]. cbn [run step fst snd]. rewrite Hr.
        cbn [fmap option_fmap option_map mbind option_bind].
        by destruct (state_of r).
    + simpl in Hop.
      destruct (setMaxSize_spec n this) as [Hset Hw]; [apply Hwf | lia | lia |].
      destruct (IH _ th Hw Hops) as (s & Hs & Hrest).
      * cbn [of_list entries]. case_decide; [|lia].
        rewrite length_take. lia.
      * exists s. split; [|done]. cbn [run step fst snd]. rewrite Hset.
        done.
Qed.

(** C7: [setMaxSize] evicts only for a capacity that is not zero and
    below the size, and a capacity at or above the size evicts nothing.
    The code misses this for [setMaxSize(4294967295)] on the cache of "b"
    and "a" (size 2): the unsigned difference 2 - 4294967295 converted to
    [int] gives [toRemove = 3], the loop evicts both entries, and its
    third iteration reads the back of the empty list. *)
Theorem setMaxSize_uint_max_evicts :
  toRemove cache_ba 4294967295 = 3
  ∧ pop_oldest 2 cache_ba = Some (of_list 2 [])
  ∧ setMaxSize 4294967295 cache_ba = None.
Proof. split; [|split]; vm_compute; reflexivity. Qed.

(** C4: after any sequence of [stat] and [setMaxSize] calls the order
    list and the index have the same size, within the capacity when it is
    not zero. The code misses this for the sequence [stat("a")],
    [setMaxSize(4294967295)] on a new cache: the second call has
    [toRemove = 2] for one entry and runs into undefined behaviour, so no
    state with the invariant is left. *)
Theorem run_setMaxSize_uint_max_undefined :
  ∃ s, run [OpStat (sys_at 100 fs_files) "a" 0]
           (CachedFileStat_new 0, thread0)
       = Some s
       ∧ names (entries s.1) = ["a"]
       ∧ toRemove s.1 4294967295 = 2
       ∧ setMaxSize 4294967295 s.1 = None
       ∧ run [OpStat (sys_at 100 fs_files) "a" 0; OpSetMaxSize 4294967295]
             (CachedFileStat_new 0, thread0)
         = None.
Proof.
  eexists. split; [reflexivity|].
  repeat split; vm_compute; reflexivity.
Qed.

(** * Further properties of the code *)

(** ** A query of the path at the front *)

Lemma unlink_front a e rest :
  NoDup ((a, e) :: rest).*1 →
  unlink a ((a, e) :: rest) = rest ∧ deref ((a, e) :: rest) (Node a) = Some e.
Proof. intros Hnd. by apply (unlink_split [] a e rest). Qed.

(** A query of the front path leaves the node list and the index as they
    are; only the data of the front entry is what [refresh] makes it. *)
Lemma stat_front m a e rest sys t th :
  wf (of_list m ((a, e) :: rest)) →
  stat sys (filename e) t (of_list m ((a, e) :: rest)) th
  = Some match refresh sys t e th with
         | Throw (e', th') x => Throw (of_list m ((a, e') :: rest), th') x
         | Ret (e', th') r => Ret (of_list m ((a, e') :: rest), th') (r, info e')
         end.
Proof.
  intros Hwf.
  destruct (locate_hit (filename e) _ a e Hwf) as (Hl & _ & _);
    [by left | done |].
  cbn [of_list maxSize entries] in Hl.
  destruct (unlink_front a e rest) as [Hun _]; [apply Hwf|].
  rewrite Hun in Hl. unfold stat. rewrite Hl. cbn [mbind option_bind].
  pose proof (refresh_filename sys t e th) as Hname.
  destruct (refresh sys t e th) as [[e' th'] r|[e' th'] x];
    cbn [state_of fst] in Hname; by rewrite store_front_of_list.
Qed.

(** What [stat] returns is what the front entry records after the call. *)
Lemma returned_is_front sys fname t this th s ret buf :
  wf this →
  stat sys fname t this th = Some (Ret s (ret, buf)) →
  ∃ a e rest,
    entries s.1 = (a, e) :: rest
    ∧ filename e = fname
    ∧ ret = last_result e
    ∧ buf = info e
    ∧ errno s.2 = last_errno e.
Proof.
  intros Hwf Hstat.
  destruct (stat_spec sys fname t this th Hwf)
    as (a & entry & rest & _ & Hf & _ & _ & Hstat' & _).
  rewrite Hstat in Hstat'. revert Hstat'.
  unfold refresh, expired, syscalls_stat.
  destruct (SystemTime_get sys) as [now|x]; [|done].
  case_bool_decide.
  - destruct (os_stat sys (c_str (filename entry))); [| |done];
      intros [= -> -> ->]; eexists _, _, _; by repeat split.
  - intros [= -> -> ->]. eexists _, _, _. by repeat split.
Qed.

(** X1: the expiry test looks at the time difference modulo 2^32 only,
    whatever [time_t] does with the subtraction: a clock that has advanced
    by a multiple of 2^32 seconds gives the same verdict, and the time
    handed back is the clock's. *)
Theorem expired_modulo sys begin interval now k :
  SystemTime_get sys = ClockReads (now + k * 2 ^ 32) →
  expired sys begin interval
  = inr (bool_decide (interval ≤ (now - begin) mod 2 ^ 32), now + k * 2 ^ 32).
Proof.
  intros Hc. unfold expired. rewrite Hc, elapsed_mod.
  replace (now + k * 2 ^ 32 - begin) with (now - begin + k * 2 ^ 32) by lia.
  by rewrite Z_mod_plus_full.
Qed.

Lemma expired_modulo_witness :
  expired (sys_at (103 + 1 * 2 ^ 32) fs_files) 100 5
  = inr (bool_decide (5 ≤ (103 - 100) mod 2 ^ 32), 103 + 1 * 2 ^ 32).
Proof.
  apply (expired_modulo (sys_at (103 + 1 * 2 ^ 32) fs_files) 100 5 103 1).
  reflexivity.
Defined.

(** X2: a failure of stat(2) is never thrown: with a readable clock and
    a system call that is not interrupted, [stat] returns, and the result,
    the record and [errno] it leaves are the ones the front entry records
    for the queried path. *)
Theorem stat_returns sys fname t this th now :
  wf this →
  SystemTime_get sys = ClockReads now →
  os_stat sys (c_str fname) ≠ StatInterrupted →
  ∃ s ret buf a e rest,
    stat sys fname t this th = Some (Ret s (ret, buf))
    ∧ entries s.1 = (a, e) :: rest
    ∧ filename e = fname
    ∧ ret = last_result e
    ∧ buf = info e
    ∧ errno s.2 = last_errno e.
Proof.
  intros Hwf Hc Hs.
  destruct (stat_spec sys fname t this th Hwf)
    as (a & entry & rest & _ & Hf & _ & _ & Hstat & _).
  destruct (refresh sys t entry th) as [[e' th'] r|[e' th'] x] eqn:Hr.
  - destruct (returned_is_front sys fname t this th _ _ _ Hwf Hstat)
      as (a' & e & rest' & H1 & H2 & H3 & H4 & H5).
    by eexists _, _, _, a', e, rest'.
  - apply refresh_throw_entry in Hr as (_ & _ & [Hthrow|[_ Hint]]).
    + congruence.
    + rewrite Hf in Hint. done.
Qed.

Lemma stat_returns_witness :
  ∃ s ret buf a e rest,
    stat (sys_at 160 fs_missing) "c" 5 cache_ba thread0
    = Some (Ret s (ret, buf))
    ∧ entries s.1 = (a, e) :: rest
    ∧ filename e = "c"
    ∧ ret = last_result e
    ∧ buf = info e
    ∧ errno s.2 = last_errno e.
Proof.
  apply (stat_returns (sys_at 160 fs_missing) "c" 5 cache_ba thread0 160).
  - apply (bool_decide_unpack _). vm_compute. exact I.
  - reflexivity.
  - discriminate.
Defined.

(** X3: with the default throttle rate 0 and a readable clock, [stat]
    passes stat(2) through: it makes exactly one call, for the C string
    of the queried name (the name up to its first NUL, which is what
    [filename.c_str()] hands over); a success returns 0 with the record
    of the call and leaves [errno] alone; a failure returns -1 with the
    code in [errno] (and the all-zero record for a path that was not
    cached); an interruption is thrown. *)
Theorem stat_unthrottled sys fname this th now :
  wf this →
  SystemTime_get sys = ClockReads now →
  ∃ r, stat sys fname 0 this th = Some r
       ∧ stat_calls (state_of r).2 = stat_calls th ++ [c_str fname]
       ∧ match os_stat sys (c_str fname) with
         | StatOk st => ∃ s, r = Ret s (0, st) ∧ errno s.2 = errno th
         | StatFail code =>
             ∃ s buf, r = Ret s (-1, buf)
                      ∧ errno s.2 = code
                      ∧ (knows fname this = false → buf = zero_stat)
         | StatInterrupted => ∃ s, r = Throw s thread_interrupted
         end.
Proof.
  intros Hwf Hc.
  destruct (stat_spec sys fname 0 this th Hwf)
    as (a & entry & rest & _ & Hf & _ & Hcase & Hstat & _).
  pose proof (proj1 (elapsed_range now (last_time entry))) as Hle.
  rewrite Hstat. eexists. split; [done|].
  destruct (os_stat sys (c_str fname)) as [st|code|] eqn:Hs;
    rewrite <- Hf in Hs.
  - erewrite refresh_stale_ok by done. cbn [state_of snd stat_calls].
    rewrite Hf. split; [done|]. eexists. by split.
  - erewrite refresh_stale_fail by done. cbn [state_of snd stat_calls].
    rewrite Hf. split; [done|]. eexists _, _. split; [done|]. split; [done|].
    intros Hk. apply knows_names_false in Hk; [|apply Hwf].
    rewrite decide_False in Hcase by done. by destruct Hcase as [-> _].
  - erewrite refresh_stale_interrupted by done. cbn [state_of snd stat_calls].
    rewrite Hf. split; [done|]. by eexists.
Qed.

Lemma stat_unthrottled_witness :
  ∃ r, stat (sys_at 160 fs_missing) name_with_nul 0 cache_ba thread0 = Some r
       ∧ stat_calls (state_of r).2
         = stat_calls thread0 ++ [c_str name_with_nul]
       ∧ match os_stat (sys_at 160 fs_missing) (c_str name_with_nul) with
         | StatOk st => ∃ s, r = Ret s (0, st) ∧ errno s.2 = errno thread0
         | StatFail code =>
             ∃ s buf, r = Ret s (-1, buf)
                      ∧ errno s.2 = code
                      ∧ (knows name_with_nul cache_ba = false →
                         buf = zero_stat)
         | StatInterrupted => ∃ s, r = Throw s thread_interrupted
         end.
Proof.
  apply (stat_unthrottled (sys_at 160 fs_missing) name_with_nul
           cache_ba thread0 160).
  - apply (bool_decide_unpack _). vm_compute. exact I.
  - reflexivity.
Defined.

(** X4: a query of the path that is already the most recently used one
    changes nothing in the structure: the index, the capacity, the nodes
    and their order stay, and only the front entry's data may be
    refreshed; when the entry is still fresh the whole object is unchanged,
    no stat(2) call is made, and the recorded result, record and error
    code are returned. *)
Theorem stat_front_keeps_structure sys fname t this th a e rest :
  wf this →
  entries this = (a, e) :: rest →
  filename e = fname →
  ∃ r e',
    stat sys fname t this th = Some r
    ∧ cache (state_of r).1 = cache this
    ∧ maxSize (state_of r).1 = maxSize this
    ∧ entries (state_of r).1 = (a, e') :: rest
    ∧ (∀ now,
         SystemTime_get sys = ClockReads now →
         elapsed now (last_time e) < t →
         r = Ret (this, {| errno := last_errno e; stat_calls := stat_calls th |})
                 (last_result e, info e)).
Proof.
  intros Hwf He <-.
  pose proof (consistent_of_list this (proj1 Hwf)) as Hthis.
  rewrite He in Hthis. rewrite Hthis in Hwf |- *.
  rewrite (stat_front _ _ _ _ sys t th Hwf).
  pose proof (refresh_filename sys t e th) as Hname.
  eexists _, (state_of (refresh sys t e th)).1. split; [done|].
  split; [|split; [|split]].
  - destruct (refresh sys t e th) as [[e' th'] r|[e' th'] x];
      cbn [state_of fst of_list cache] in *; by rewrite !index_cons, Hname.
  - by destruct (refresh sys t e th) as [[e' th'] r|[e' th'] x].
  - by destruct (refresh sys t e th) as [[e' th'] r|[e' th'] x].
  - intros now Hc Hlt. by erewrite refresh_fresh by done.
Qed.

Lemma stat_front_keeps_structure_witness :
  ∃ r e',
    stat (sys_at 103 fs_files) "b" 5 cache_ba thread0 = Some r
    ∧ cache (state_of r).1 = cache cache_ba
    ∧ maxSize (state_of r).1 = maxSize cache_ba
    ∧ entries (state_of r).1 = (2%nat, e') :: [(1%nat, entry_at_100)]
    ∧ (∀ now,
         SystemTime_get (sys_at 103 fs_files) = ClockReads now →
         elapsed now (last_time entry_b_at_101) < 5 →
         r = Ret (cache_ba,
                  {| errno := last_errno entry_b_at_101;
                     stat_calls := stat_calls thread0 |})
                 (last_result entry_b_at_101, info entry_b_at_101)).
Proof.
  apply (stat_front_keeps_structure (sys_at 103 fs_files) "b" 5 cache_ba
           thread0 2%nat entry_b_at_101 [(1%nat, entry_at_100)]).
  - apply (bool_decide_unpack _). vm_compute. exact I.
  - reflexivity.
  - reflexivity.
Defined.

(** X5: a query whose stat(2) call succeeds returns 0 with the record of
    the call and is cached. A later query of the path that comes less than
    the throttle interval after it makes no stat(2) call, returns 0 and
    the same record, and sets [errno] back to the value [errno] had when
    the successful call returned; it leaves the cache object as it is
    when the entry is still at the front, and otherwise only moves the
    entry's node to the front. A query that comes when the interval has
    elapsed makes a stat(2) call again. *)
Theorem stat_success_is_cached sys fname t this th now s ret buf st :
  wf this →
  SystemTime_get sys = ClockReads now →
  os_stat sys (c_str fname) = StatOk st →
  stat sys fname t this th = Some (Ret s (ret, buf)) →
  real_queries th s.2 = 1 →
  ret = 0
  ∧ buf = st
  ∧ errno s.2 = errno th
  ∧ wf s.1
  ∧ knows fname s.1 = true
  ∧ ∃ a e rest,
      entries s.1 = (a, e) :: rest
      ∧ filename e = fname
      ∧ ∀ sys2 now2 t2 th2,
          SystemTime_get sys2 = ClockReads now2 →
          (0 ≤ now2 - now < t2 →
           stat sys2 fname t2 s.1 th2
           = Some (Ret (s.1, {| errno := errno th;
                                stat_calls := stat_calls th2 |})
                       (0, st))
           ∧ ∀ this2,
               wf this2 →
               (a, e) ∈ entries this2 →
               stat sys2 fname t2 this2 th2
               = Some (Ret (of_list (maxSize this2)
                              ((a, e) :: unlink a (entries this2)),
                            {| errno := errno th;
                               stat_calls := stat_calls th2 |})
                           (0, st)))
          ∧ (t2 ≤ now2 - now < 2 ^ 32 →
             ∃ r2, stat sys2 fname t2 s.1 th2 = Some r2
                   ∧ stat_calls (state_of r2).2
                     = stat_calls th2 ++ [c_str fname]).
Proof.
  intros Hwf Hc Hs Hstat Hq.
  destruct (stat_spec sys fname t this th Hwf)
    as (a & entry & rest & _ & Hf & _ & _ & Hstat' & Hw).
  rewrite Hstat in Hstat'.
  pose proof (refresh_real_queries sys t entry th now Hc) as Hcount.
  case_bool_decide as Hle.
  2:{ erewrite refresh_fresh in Hstat' by (done || lia).
      injection Hstat' as -> _ _. unfold real_queries in Hq. simpl in Hq. lia. }
  rewrite <- Hf in Hs.
  erewrite refresh_stale_ok in Hstat', Hw by done.
  injection Hstat' as -> -> ->. cbn [state_of fst snd errno] in *.
  set (entry' := {| last_result := 0; last_errno := errno th; last_time := now;
                    info := st; filename := filename entry |}) in *.
  assert (filename entry' = fname) as Hf' by done.
  split; [done|]. split; [done|]. split; [done|]. split; [done|]. split.
  { apply knows_names; [apply Hw|]. cbn [of_list entries]. unfold names.
    rewrite fmap_cons. cbn [snd]. rewrite Hf'. by left. }
  exists a, entry', rest. cbn [of_list entries].
  split; [done|]. split; [done|].
  intros sys2 now2 t2 th2 Hc2. split.
  - intros Hwin.
    assert (elapsed now2 (last_time entry') < t2) as Hlt.
    { cbn [entry' last_time]. pose proof (elapsed_le now2 now). lia. }
    split.
    + rewrite <- Hf'. rewrite (stat_front _ _ _ _ sys2 t2 th2 Hw).
      by erewrite refresh_fresh by done.
    + intros this2 Hwf2 Hin2.
      destruct (stat_hit sys2 t2 this2 th2 a entry' Hwf2 Hin2) as [Hstat2 _].
      rewrite Hf' in Hstat2. rewrite Hstat2.
      by erewrite refresh_fresh by done.
  - intros Hout.
    assert (t2 ≤ elapsed now2 (last_time entry')) as Hle2.
    { cbn [entry' last_time]. destruct (decide (0 ≤ now2 - now)).
      - rewrite elapsed_forward; lia.
      - pose proof (elapsed_range now2 now). lia. }
    pose proof (refresh_stale_calls sys2 t2 entry' th2 now2 Hc2 Hle2) as Hcalls.
    rewrite Hf' in Hcalls.
    pose proof (stat_front _ _ _ _ sys2 t2 th2 Hw) as Hfront.
    rewrite Hf' in Hfront. rewrite Hfront.
    eexists. split; [done|].
    by destruct (refresh sys2 t2 entry' th2) as [[e2 th2'] r|[e2 th2'] x].
Qed.

Lemma stat_success_is_cached_witness :
  ∃ s ret buf st,
    stat (sys_at 160 fs_files) "a" 5 cache_ba thread0 = Some (Ret s (ret, buf))
    ∧ os_stat (sys_at 160 fs_files) (c_str "a") = StatOk st
    ∧ ret = 0
    ∧ buf = st
    ∧ errno s.2 = errno thread0
    ∧ wf s.1
    ∧ knows "a" s.1 = true
    ∧ ∃ a e rest,
        entries s.1 = (a, e) :: rest
        ∧ filename e = "a"
        ∧ ∀ sys2 now2 t2 th2,
            SystemTime_get sys2 = ClockReads now2 →
            (0 ≤ now2 - 160 < t2 →
             stat sys2 "a" t2 s.1 th2
             = Some (Ret (s.1, {| errno := errno thread0;
                                  stat_calls := stat_calls th2 |})
                         (0, st))
             ∧ ∀ this2,
                 wf this2 →
                 (a, e) ∈ entries this2 →
                 stat sys2 "a" t2 this2 th2
                 = Some (Ret (of_list (maxSize this2)
                                ((a, e) :: unlink a (entries this2)),
                              {| errno := errno thread0;
                                 stat_calls := stat_calls th2 |})
                             (0, st)))
            ∧ (t2 ≤ now2 - 160 < 2 ^ 32 →
               ∃ r2, stat sys2 "a" t2 s.1 th2 = Some r2
                     ∧ stat_calls (state_of r2).2
                       = stat_calls th2 ++ [c_str "a"]).
Proof.
  eexists _, _, _, _. split; [reflexivity|]. split; [reflexivity|].
  apply (stat_success_is_cached (sys_at 160 fs_files) "a" 5
           cache_ba thread0 160).
  - apply (bool_decide_unpack _). vm_compute. exact I.
  - reflexivity.
  - reflexivity.
  - reflexivity.
  - vm_compute. reflexivity.
Defined.

(** ** Which paths a query keeps *)

Lemma elem_of_removelast_NoDup (l : list string) g :
  NoDup l → g ∈ removelast l ↔ g ∈ l ∧ last l ≠ Some g.
Proof.
  intros Hnd. destruct (decide (l = [])) as [->|Hne].
  { simpl. split; [by intros ?%elem_of_nil | by intros [?%elem_of_nil _]]. }
  destruct (proj2 (last_is_Some l) Hne) as [x [k ->]%last_Some].
  apply NoDup_app in Hnd as (_ & Hdisj & _).
  rewrite removelast_last, last_snoc, elem_of_app, list_elem_of_singleton.
  split.
  - intros Hin. split; [by left|]. intros [= ->]. apply (Hdisj g Hin). by left.
  - intros [[Hin| ->] Hne']; [done | congruence].
Qed.

Lemma elem_of_touch capacity f (l : list string) g :
  NoDup l →
  g ∈ touch capacity f l
  ↔ g = f
    ∨ (g ∈ l ∧ ¬ ((f ∉ l) ∧ full capacity (length l) ∧ last l = Some g)).
Proof.
  intros Hnd. unfold touch.
  destruct (decide (f ∈ l)) as [Hin|Hni];
    [|destruct (decide (full capacity (length l))) as [Hfull|Hroom]];
    rewrite elem_of_cons.
  - rewrite list_elem_of_filter. split.
    + intros [->|[Hne Hg]]; [by left|]. right. split; [done|]. tauto.
    + intros [->|[Hg _]]; [by left|].
      destruct (decide (g = f)) as [->|Hne]; [by left | by right].
  - rewrite elem_of_removelast_NoDup by done. split.
    + intros [->|[Hg Hlast]]; [by left|]. right. split; [done|]. tauto.
    + intros [->|[Hg Hnot]]; [by left|]. right. split; [done|].
      intros Hlast. by apply Hnot.
  - split.
    + intros [->|Hg]; [by left|]. right. split; [done|]. tauto.
    + intros [->|[Hg _]]; [by left | by right].
Qed.

Lemma elem_of_touches_unbounded fs : ∀ (l : list string) g,
  g ∈ touches 0 fs l ↔ g ∈ fs ∨ g ∈ l.
Proof.
  induction fs as [|f fs IH]; intros l g.
  - simpl. split; [by right | by intros [?%elem_of_nil|?]].
  - change (touches 0 (f :: fs) l) with (touches 0 fs (touch 0 f l)).
    rewrite IH, elem_of_cons.
    assert (g ∈ touch 0 f l ↔ g = f ∨ g ∈ l) as ->.
    { unfold touch. destruct (decide (f ∈ l)) as [Hin|Hni].
      - rewrite elem_of_cons, list_elem_of_filter. split.
        + intros [->|[_ Hg]]; [by left | by right].
        + intros [->|Hg]; [by left|].
          destruct (decide (g = f)) as [->|Hne]; [by left | by right].
      - rewrite decide_False by (by intros [? _]). by rewrite elem_of_cons. }
    tauto.
Qed.

(** X6: after a query the cache knows the queried path, and of the other
    paths exactly those it knew before, except the path at the back of
    the recency order when the query was a miss on a full cache. *)
Theorem stat_knows sys fname t this th :
  wf this →
  ∃ r, stat sys fname t this th = Some r
       ∧ ∀ g, knows g (state_of r).1 = true
              ↔ g = fname
                ∨ (knows g this = true
                   ∧ ¬ (knows fname this = false
                        ∧ full (maxSize this) (length (entries this))
                        ∧ last (names (entries this)) = Some g)).
Proof.
  intros Hwf.
  destruct (stat_wf sys fname t this th Hwf) as (r & Hr & Hw & _ & Hn).
  exists r. split; [done|]. intros g.
  rewrite (knows_names g _ (proj1 Hw)), Hn.
  rewrite elem_of_touch by apply Hwf.
  rewrite (knows_names g this (proj1 Hwf)).
  rewrite (knows_names_false fname this (proj1 Hwf)).
  by rewrite names_length.
Qed.

Lemma stat_knows_witness :
  ∃ r, stat (sys_at 160 fs_files) "c" 5 cache_ba thread0 = Some r
       ∧ ∀ g, knows g (state_of r).1 = true
              ↔ g = "c"
                ∨ (knows g cache_ba = true
                   ∧ ¬ (knows "c" cache_ba = false
                        ∧ full (maxSize cache_ba) (length (entries cache_ba))
                        ∧ last (names (entries cache_ba)) = Some g)).
Proof.
  apply (stat_knows (sys_at 160 fs_files) "c" 5 cache_ba thread0).
  apply (bool_decide_unpack _). vm_compute. exact I.
Defined.

(** X7: a query touches no entry but the queried one: behind the front
    node, which holds the queried path, the node list is a sublist of the
    old one, so every other entry keeps its node, its recorded data and
    its place relative to the others, and none of them has the queried
    path. *)
Theorem stat_frame sys fname t this th :
  wf this →
  ∃ r a e rest,
    stat sys fname t this th = Some r
    ∧ entries (state_of r).1 = (a, e) :: rest
    ∧ filename e = fname
    ∧ rest `sublist_of` entries this
    ∧ Forall (λ n, filename n.2 ≠ fname) rest.
Proof.
  intros Hwf.
  destruct (stat_spec sys fname t this th Hwf)
    as (a & entry & rest & _ & Hf & _ & Hcase & Hstat & Hw).
  pose proof (refresh_filename sys t entry th) as Hname.
  eexists _, a, (state_of (refresh sys t entry th)).1, rest.
  split; [done|]. split; [|split; [|split]].
  - by destruct (refresh sys t entry th) as [[e' th'] r|[e' th'] x].
  - by rewrite Hname.
  - destruct (decide (fname ∈ names (entries this))).
    + destruct Hcase as [_ ->]. apply sublist_filter.
    + destruct Hcase as [_ ->]. case_decide; [|done].
      rewrite removelast_firstn_len. apply sublist_take.
  - destruct Hw as [(_ & Hnd & _) _]. cbn [of_list entries] in Hnd.
    unfold names in Hnd. rewrite fmap_cons in Hnd. cbn [snd] in Hnd.
    apply NoDup_cons in Hnd as [Hni _]. rewrite Hname, Hf in Hni.
    apply Forall_forall. intros n Hin Heq. apply Hni.
    apply list_elem_of_fmap. by exists n.
Qed.

Lemma stat_frame_witness :
  ∃ r a e rest,
    stat (sys_at 160 fs_files) "a" 5 cache_ba thread0 = Some r
    ∧ entries (state_of r).1 = (a, e) :: rest
    ∧ filename e = "a"
    ∧ rest `sublist_of` entries cache_ba
    ∧ Forall (λ n, filename n.2 ≠ "a") rest.
Proof.
  apply (stat_frame (sys_at 160 fs_files) "a" 5 cache_ba thread0).
  apply (bool_decide_unpack _). vm_compute. exact I.
Defined.

(** X8: a cache of capacity 0 never evicts: after any run of queries it
    is still unbounded and knows exactly the paths it knew before and the
    paths queried. *)
Theorem unbounded_never_evicts qs this th :
  wf this →
  maxSize this = 0 →
  ∃ s, run (queries qs) (this, th) = Some s
       ∧ maxSize s.1 = 0
       ∧ ∀ f, knows f s.1 = true ↔ f ∈ paths qs ∨ knows f this = true.
Proof.
  intros Hwf Hzero.
  destruct (run_queries qs this th Hwf) as (s & Hs & Hw & Hm & Hn).
  exists s. split; [done|]. split; [congruence|]. intros f.
  rewrite (knows_names f _ (proj1 Hw)), Hn, Hzero.
  rewrite elem_of_touches_unbounded.
  by rewrite (knows_names f this (proj1 Hwf)).
Qed.

Lemma unbounded_never_evicts_witness :
  ∃ s, run (queries queries_abc) (cache_ba_unbounded, thread0) = Some s
       ∧ maxSize s.1 = 0
       ∧ ∀ f, knows f s.1 = true
              ↔ f ∈ paths queries_abc ∨ knows f cache_ba_unbounded = true.
Proof.
  apply (unbounded_never_evicts queries_abc cache_ba_unbounded thread0).
  - apply (bool_decide_unpack _). vm_compute. exact I.
  - reflexivity.
Defined.

(** ** [setMaxSize] within the [int] range *)

Lemma setMaxSize_take n this :
  consistent this →
  0 < n < 2 ^ 32 →
  - 2 ^ 31 ≤ Z.of_nat (length (entries this)) - n < 2 ^ 31 →
  setMaxSize n this = Some (of_list n (take (Z.to_nat n) (entries this)))
  ∧ wf (of_list n (take (Z.to_nat n) (entries this))).
Proof.
  intros Hc Hn Hint.
  destruct (setMaxSize_spec n this Hc) as [Hset Hw]; [lia | done |].
  destruct (decide (n ≠ 0 ∧ n < Z.of_nat (length (entries this))))
    as [_|Hge]; [done|].
  rewrite take_ge by lia. done.
Qed.

Lemma names_take k l : names (take k l) = take k (names l).
Proof. unfold names. by rewrite fmap_take. Qed.

(** X9: [setMaxSize(n)] with [n] not zero, on a cache whose size differs
    from [n] by less than 2^31, keeps the [n] most recently used entries
    in their order (all of them when there are no more than [n]), makes
    [n] the capacity, and leaves a cache that knows exactly the kept
    paths, whatever the capacity was before. *)
Theorem setMaxSize_keeps_most_recent n this :
  consistent this →
  0 < n < 2 ^ 32 →
  - 2 ^ 31 ≤ Z.of_nat (length (entries this)) - n < 2 ^ 31 →
  ∃ this',
    setMaxSize n this = Some this'
    ∧ maxSize this' = n
    ∧ entries this' = take (Z.to_nat n) (entries this)
    ∧ wf this'
    ∧ ∀ f, knows f this' = true ↔ f ∈ take (Z.to_nat n) (names (entries this)).
Proof.
  intros Hc Hn Hint.
  destruct (setMaxSize_take n this Hc Hn Hint) as [Hset Hw].
  eexists. split; [done|]. split; [done|]. split; [done|]. split; [done|].
  intros f. rewrite (knows_names f _ (proj1 Hw)). cbn [of_list entries].
  by rewrite names_take.
Qed.

Lemma setMaxSize_keeps_most_recent_witness :
  ∃ this',
    setMaxSize 1 cache_ba = Some this'
    ∧ maxSize this' = 1
    ∧ entries this' = take (Z.to_nat 1) (entries cache_ba)
    ∧ wf this'
    ∧ ∀ f, knows f this' = true
           ↔ f ∈ take (Z.to_nat 1) (names (entries cache_ba)).
Proof.
  apply (setMaxSize_keeps_most_recent 1 cache_ba).
  - apply (bool_decide_unpack _). vm_compute. exact I.
  - lia.
  - vm_compute. split; [discriminate | reflexivity].
Defined.

(** X10: a capacity that exceeds the size by more than 2^31 makes the
    [int] [toRemove] come out as the size plus [2^32 - n], above the size:
    the loop of [setMaxSize] evicts every entry and then reads the back of
    the empty list, which is undefined. *)
Theorem setMaxSize_beyond_int n this :
  consistent this →
  0 ≤ n < 2 ^ 32 →
  2 ^ 31 < n - Z.of_nat (length (entries this)) →
  toRemove this n = Z.of_nat (length (entries this)) + (2 ^ 32 - n)
  ∧ pop_oldest (length (entries this)) this = Some (of_list (maxSize this) [])
  ∧ setMaxSize n this = None.
Proof. apply setMaxSize_overflow. Qed.

Lemma setMaxSize_beyond_int_witness :
  toRemove cache_ba_unbounded 2147483651
  = Z.of_nat (length (entries cache_ba_unbounded)) + (2 ^ 32 - 2147483651)
  ∧ pop_oldest (length (entries cache_ba_unbounded)) cache_ba_unbounded
    = Some (of_list (maxSize cache_ba_unbounded) [])
  ∧ setMaxSize 2147483651 cache_ba_unbounded = None.
Proof.
  apply (setMaxSize_beyond_int 2147483651 cache_ba_unbounded).
  - apply (bool_decide_unpack _). vm_compute. exact I.
  - lia.
  - vm_compute. reflexivity.
Defined.

(** X11: two resizes in a row, with capacities that are not zero and at
    most 2^31 on a cache of fewer than 2^31 entries, leave the entries
    that a single resize to the smaller capacity leaves, and the second
    capacity is the one in force. *)
Theorem setMaxSize_twice n m this :
  consistent this →
  0 < n ≤ 2 ^ 31 →
  0 < m ≤ 2 ^ 31 →
  Z.of_nat (length (entries this)) < 2 ^ 31 →
  setMaxSize n this ≫= setMaxSize m
  = Some (of_list m (take (Z.to_nat (Z.min n m)) (entries this))).
Proof.
  intros Hc Hn Hm Hlen.
  destruct (setMaxSize_take n this Hc) as [-> Hw]; [lia | lia |].
  cbn [mbind option_bind].
  destruct (setMaxSize_take m _ (proj1 Hw)) as [-> _]; [lia | |].
  - cbn [of_list entries]. rewrite length_take. lia.
  - cbn [of_list entries]. rewrite take_take.
    by replace (Z.to_nat m `min` Z.to_nat n)%nat with (Z.to_nat (Z.min n m))
      by lia.
Qed.

Lemma setMaxSize_twice_witness :
  setMaxSize 2 cache_ba_unbounded ≫= setMaxSize 1
  = Some (of_list 1 (take (Z.to_nat (Z.min 2 1)) (entries cache_ba_unbounded))).
Proof.
  apply (setMaxSize_twice 2 1 cache_ba_unbounded).
  - apply (bool_decide_unpack _). vm_compute. exact I.
  - lia.
  - lia.
  - vm_compute. reflexivity.
Defined.

(** ** Runs of [stat] and [setMaxSize] within the [int] range *)

Lemma index_resolves this f it :
  consistent this →
  cache this !! f = Some it →
  ∃ a e, it = Node a
         ∧ (a, e) ∈ entries this
         ∧ deref (entries this) it = Some e
         ∧ filename e = f.
Proof.
  intros (Ha & Hn & Hc) Hlook. rewrite Hc in Hlook.
  apply index_lookup_Some in Hlook as (a & e & Hin & Hf & ->); [|done].
  exists a, e. split; [done|]. split; [done|]. split; [|done].
  destruct (list_elem_of_split _ _ Hin) as (l1 & l2 & Hl).
  rewrite Hl in Ha |- *. by destruct (unlink_split _ _ _ _ Ha).
Qed.

Lemma index_complete this a e :
  consistent this →
  (a, e) ∈ entries this →
  cache this !! filename e = Some (Node a).
Proof.
  intros (_ & Hn & ->) Hin. apply index_lookup_Some; [done|]. by exists a, e.
Qed.

(** X12: from a well-formed cache, every run of [stat] and [setMaxSize]
    calls whose capacities are at most 2^31, and which is too short to
    bring the size to 2^31, is defined and keeps the invariant: no path is
    listed twice, the index has as many keys as the list has entries, and
    a capacity other than zero bounds that number. *)
Theorem run_keeps_invariant ops this th :
  wf this →
  Forall op_in_range ops →
  Z.of_nat (length (entries this) + length ops) < 2 ^ 31 →
  ∃ s, run ops (this, th) = Some s
       ∧ NoDup (names (entries s.1))
       ∧ size (cache s.1) = length (entries s.1)
       ∧ (maxSize s.1 ≠ 0 → Z.of_nat (size (cache s.1)) ≤ maxSize s.1).
Proof.
  intros Hwf Hops Hlen.
  destruct (run_wf ops this th Hwf Hops Hlen) as (s & Hs & Hw & Hsize & Hb).
  exists s. split; [done|]. split; [apply Hw|]. done.
Qed.

Lemma run_keeps_invariant_witness :
  ∃ s, run ops_shrink (CachedFileStat_new 2, thread0) = Some s
       ∧ NoDup (names (entries s.1))
       ∧ size (cache s.1) = length (entries s.1)
       ∧ (maxSize s.1 ≠ 0 → Z.of_nat (size (cache s.1)) ≤ maxSize s.1).
Proof.
  apply (run_keeps_invariant ops_shrink (CachedFileStat_new 2) thread0).
  - apply (bool_decide_unpack _). vm_compute. exact I.
  - unfold ops_shrink, op_in_range. repeat constructor; vm_compute; discriminate.
  - vm_compute. reflexivity.
Defined.

(** X13: after such a run no iterator of the index dangles: every key of
    the index gives a node of the list whose entry has that key as its
    path, every entry of the list is found under its path at its own
    node, and no two entries share a node. *)
Theorem run_index_resolves ops this th :
  wf this →
  Forall op_in_range ops →
  Z.of_nat (length (entries this) + length ops) < 2 ^ 31 →
  ∃ s, run ops (this, th) = Some s
       ∧ (∀ f it, cache s.1 !! f = Some it →
                  ∃ e, deref (entries s.1) it = Some e ∧ filename e = f)
       ∧ (∀ a e, (a, e) ∈ entries s.1 →
                 cache s.1 !! filename e = Some (Node a))
       ∧ NoDup (entries s.1).*1.
Proof.
  intros Hwf Hops Hlen.
  destruct (run_wf ops this th Hwf Hops Hlen) as (s & Hs & Hw & _).
  exists s. split; [done|]. split; [|split].
  - intros f it Hlook.
    destruct (index_resolves s.1 f it (proj1 Hw) Hlook)
      as (a & e & _ & _ & Hd & Hf).
    by exists e.
  - intros a e Hin. by apply index_complete; [apply Hw|].
  - apply Hw.
Qed.

Lemma run_index_resolves_witness :
  ∃ s, run ops_shrink (CachedFileStat_new 2, thread0) = Some s
       ∧ (∀ f it, cache s.1 !! f = Some it →
                  ∃ e, deref (entries s.1) it = Some e ∧ filename e = f)
       ∧ (∀ a e, (a, e) ∈ entries s.1 →
                 cache s.1 !! filename e = Some (Node a))
       ∧ NoDup (entries s.1).*1.
Proof.
  apply (run_index_resolves ops_shrink (CachedFileStat_new 2) thread0).
  - apply (bool_decide_unpack _). vm_compute. exact I.
  - unfold ops_shrink, op_in_range. repeat constructor; vm_compute; discriminate.
  - vm_compute. reflexivity.
Defined.

(** X14: a query changes the number of cached paths by at most one: it
    stays the same on a hit and on a miss that finds the cache full, and
    grows by one on any other miss. *)
Theorem stat_size sys fname t this th :
  wf this →
  ∃ r, stat sys fname t this th = Some r
       ∧ size (cache (state_of r).1)
         = if decide (knows fname this = true
                      ∨ full (maxSize this) (size (cache this)))
           then size (cache this) else S (size (cache this)).
Proof.
  intros Hwf.
  destruct (stat_spec sys fname t this th Hwf)
    as (a & entry & rest & _ & _ & _ & Hcase & Hstat & Hw).
  eexists. split; [done|].
  assert (size (cache (state_of
            match refresh sys t entry th with
            | Ret (entry', th') ret =>
                Ret (of_list (maxSize this) ((a, entry') :: rest), th')
                    (ret, info entry')
            | Throw (entry', th') e =>
                Throw (of_list (maxSize this) ((a, entry') :: rest), th') e
            end).1) = S (length rest)) as ->.
  { rewrite consistent_size.
    - by destruct (refresh sys t entry th) as [[? ?] ?|[? ?] ?].
    - destruct (refresh sys t entry th) as [[? ?] ?|[? ?] ?]; apply Hw. }
  rewrite (consistent_size this) by apply Hwf.
  pose proof (knows_names fname this (proj1 Hwf)) as Hk.
  destruct (decide (fname ∈ names (entries this))) as [Hin|Hni].
  - rewrite decide_True by (left; by apply Hk). destruct Hcase as [Hin' ->].
    destruct (list_elem_of_split _ _ Hin') as (l1 & l2 & Hl).
    destruct Hwf as [(Ha & _) _]. rewrite Hl in Ha.
    destruct (unlink_split _ _ _ _ Ha) as [Hun _]. rewrite <- Hl in Hun.
    rewrite Hun, Hl, !length_app. simpl. lia.
  - destruct Hcase as [_ ->].
    destruct (decide (full (maxSize this) (length (entries this))))
      as [Hfull|Hroom].
    + rewrite decide_True by (by right).
      apply length_removelast. intros Hnil. destruct Hfull as [Hnz Hfull].
      rewrite Hnil in Hfull. simpl in Hfull. lia.
    + rewrite decide_False by tauto. done.
Qed.

Lemma stat_size_witness :
  ∃ r, stat (sys_at 160 fs_files) "c" 5 cache_ba thread0 = Some r
       ∧ size (cache (state_of r).1)
         = if decide (knows "c" cache_ba = true
                      ∨ full (maxSize cache_ba) (size (cache cache_ba)))
           then size (cache cache_ba) else S (size (cache cache_ba)).
Proof.
  apply (stat_size (sys_at 160 fs_files) "c" 5 cache_ba thread0).
  apply (bool_decide_unpack _). vm_compute. exact I.
Defined.

(** ** What a run of queries keeps *)

Lemma run_app ops1 : ∀ ops2 st,
  run (ops1 ++ ops2) st = run ops1 st ≫= run ops2.
Proof.
  induction ops1 as [|op ops1 IH]; intros ops2 st; [done|].
  cbn [app run]. destruct (step op st) as [st'|]; [|done].
  cbn [mbind option_bind]. apply IH.
Qed.

Lemma touch_split capacity f l :
  ∃ suf, touch capacity f l = [] ++ f :: suf.
Proof. destruct (touch_front capacity f l) as [k ->]. by exists k. Qed.

(** X15: a bounded cache holds its working set: in any run of queries
    on a cache of capacity [C] other than zero, a path is still known at
    the end if the queries made after its last query ask for at most
    [C - 1] distinct other paths. *)
Theorem recently_queried_is_known qs1 q qs2 this th :
  wf this →
  maxSize this ≠ 0 →
  Z.of_nat (length (remove_dups (filter (λ g, g ≠ q.1.2) (paths qs2))))
  ≤ maxSize this - 1 →
  ∃ s, run (queries (qs1 ++ q :: qs2)) (this, th) = Some s
       ∧ knows q.1.2 s.1 = true.
Proof.
  intros Hwf Hnz Hfew.
  destruct (run_queries (qs1 ++ [q]) this th Hwf) as (s1 & Hs1 & Hw1 & Hm1 & Hn1).
  destruct (run_queries qs2 s1.1 s1.2 Hw1) as (s & Hs & Hw & _ & Hn).
  exists s. split.
  { replace (qs1 ++ q :: qs2) with ((qs1 ++ [q]) ++ qs2)
      by (by rewrite <- app_assoc).
    unfold queries in *. rewrite fmap_app, run_app, Hs1.
    cbn [mbind option_bind]. by destruct s1. }
  apply knows_names; [apply Hw|]. rewrite Hn, Hm1.
  unfold paths in Hn1. rewrite fmap_app in Hn1. fold (paths qs1) in Hn1.
  change ((λ q0 : Sys * string * Z, q0.1.2) <$> [q]) with [q.1.2] in Hn1.
  rewrite touches_snoc in Hn1.
  destruct (touch_split (maxSize this) q.1.2
              (touches (maxSize this) (paths qs1) (names (entries this))))
    as [suf Hsplit].
  destruct Hw1 as [(_ & Hnd1 & _) [_ Hb1]].
  eapply (touches_survive _ q.1.2 _ _ [] suf []); try done.
  - rewrite names_length, <- Hm1. apply Hb1. congruence.
  - by rewrite Hn1.
  - intros S HS Hx.
    assert (S ⊆+ remove_dups (filter (λ g, g ≠ q.1.2) (paths qs2))) as Hsub.
    { apply NoDup_submseteq; [done|]. intros x Hin.
      destruct (Hx x Hin) as [Hne [Hnil|Hq]]; [by apply elem_of_nil in Hnil|].
      apply elem_of_remove_dups, list_elem_of_filter. done. }
    apply submseteq_length in Hsub. lia.
Qed.

Lemma recently_queried_is_known_witness :
  ∃ s, run (queries ([(sys_at 100 fs_files, "A", 10)]
                     ++ (sys_at 101 fs_files, "B", 10)
                        :: [(sys_at 102 fs_files, "C", 10)]))
           (CachedFileStat_new 2, thread0) = Some s
       ∧ knows "B" s.1 = true.
Proof.
  apply (recently_queried_is_known
           [(sys_at 100 fs_files, "A", 10)] (sys_at 101 fs_files, "B", 10)
           [(sys_at 102 fs_files, "C", 10)] (CachedFileStat_new 2) thread0).
  - apply (bool_decide_unpack _). vm_compute. exact I.
  - discriminate.
  - vm_compute. discriminate.
Defined.

(** X16: [stat] calls stat(2) at most once in a call, and for nothing but
    the C string of the queried name (the name up to its first NUL, which
    is what [filename.c_str()] hands over); it makes no call at all when
    the clock cannot be read. *)
Theorem stat_calls_only_queried sys fname t this th :
  wf this →
  ∃ r, stat sys fname t this th = Some r
       ∧ (stat_calls (state_of r).2 = stat_calls th
          ∨ stat_calls (state_of r).2 = stat_calls th ++ [c_str fname])
       ∧ (∀ e, SystemTime_get sys = ClockThrows e →
               stat_calls (state_of r).2 = stat_calls th).
Proof.
  intros Hwf.
  destruct (stat_spec sys fname t this th Hwf)
    as (a & entry & rest & _ & Hf & _ & _ & Hstat & _).
  eexists. split; [done|].
  unfold refresh, expired, syscalls_stat. rewrite Hf.
  destruct (SystemTime_get sys) as [now|x].
  - split; [|done]. case_bool_decide; [|by left].
    destruct (os_stat sys (c_str fname)); by right.
  - split; [by left | done].
Qed.

Lemma stat_calls_only_queried_witness :
  ∃ r, stat (sys_at 160 fs_files) "a" 5 cache_ba thread0 = Some r
       ∧ (stat_calls (state_of r).2 = stat_calls thread0
          ∨ stat_calls (state_of r).2 = stat_calls thread0 ++ [c_str "a"])
       ∧ (∀ e, SystemTime_get (sys_at 160 fs_files) = ClockThrows e →
               stat_calls (state_of r).2 = stat_calls thread0).
Proof.
  apply (stat_calls_only_queried (sys_at 160 fs_files) "a" 5 cache_ba thread0).
  apply (bool_decide_unpack _). vm_compute. exact I.
Defined.

(** ** The cache holds the most recently queried paths *)

Section recent.
Implicit Types (f : string) (D l : list string) (k : nat).

Lemma distinct_NoDup l : NoDup (distinct l).
Proof.
  induction l as [|f l IH]; [apply NoDup_nil_2|].
  cbn [distinct]. apply NoDup_cons. split; [|by apply NoDup_filter].
  by intros [Hne _]%list_elem_of_filter.
Qed.

Lemma elem_of_take_elem {A} (x : A) k (l : list A) : x ∈ take k l → x ∈ l.
Proof.
  intros Hin. rewrite <- (take_drop k l), elem_of_app. by left.
Qed.

Lemma filter_take_hit f : ∀ D k,
  NoDup D → f ∈ take (S k) D →
  filter (λ g, g ≠ f) (take (S k) D) = take k (filter (λ g, g ≠ f) D).
Proof.
  induction D as [|x D IH]; intros k Hnd Hin;
    [by apply elem_of_nil in Hin|].
  apply NoDup_cons in Hnd as [Hx Hnd]. cbn [take] in *.
  destruct (decide (x = f)) as [->|Hne].
  - rewrite !filter_cons_False by tauto.
    rewrite !filter_ne_absent; [done | done |].
    intros Hf%elem_of_take_elem. done.
  - rewrite !filter_cons_True by done.
    apply elem_of_cons in Hin as [->|Hin]; [done|].
    destruct k as [|k]; [by apply elem_of_nil in Hin|].
    cbn [take]. by rewrite IH.
Qed.

Lemma filter_take_miss f : ∀ D k,
  f ∉ take (S k) D →
  take k (filter (λ g, g ≠ f) D) = take k D.
Proof.
  induction D as [|x D IH]; intros k Hni; [done|].
  cbn [take] in Hni. apply not_elem_of_cons in Hni as [Hne Hni].
  rewrite filter_cons_True by congruence.
  destruct k as [|k]; [done|]. cbn [take]. by rewrite IH.
Qed.

(** One more query on the most recent paths. *)
Lemma touch_recent capacity f D :
  0 ≤ capacity →
  NoDup D →
  touch capacity f
    (if decide (capacity = 0) then D else take (Z.to_nat capacity) D)
  = if decide (capacity = 0) then f :: filter (λ g, g ≠ f) D
    else take (Z.to_nat capacity) (f :: filter (λ g, g ≠ f) D).
Proof.
  intros Hcap Hnd. destruct (decide (capacity = 0)) as [->|Hnz].
  - unfold touch. destruct (decide (f ∈ D)); [done|].
    rewrite decide_False by (by intros [? _]).
    by rewrite filter_ne_absent.
  - destruct (Z.to_nat capacity) as [|k] eqn:Hk; [lia|]. cbn [take].
    destruct (decide (f ∈ take (S k) D)) as [Hin|Hni].
    + rewrite touch_hit by done. by rewrite filter_take_hit.
    + rewrite (filter_take_miss f D k Hni).
      destruct (decide (S k ≤ length D)%nat) as [Hlen|Hlen].
      * rewrite touch_miss_full; [| done |].
        -- by rewrite removelast_firstn by lia.
        -- split; [done|]. rewrite length_take. lia.
      * rewrite touch_miss_room; [| done |].
        -- rewrite !take_ge by lia. done.
        -- intros [_ Hfull]. rewrite length_take in Hfull. lia.
Qed.

Lemma touches_recent capacity fs :
  0 ≤ capacity →
  touches capacity fs [] = recent_paths capacity fs.
Proof.
  intros Hcap. induction fs as [|f fs IH] using rev_ind.
  - unfold recent_paths. cbn. destruct (decide (capacity = 0)); [done|].
    by rewrite take_nil.
  - rewrite touches_snoc, IH. unfold recent_paths.
    rewrite reverse_snoc. cbn [distinct].
    apply touch_recent; [done | apply distinct_NoDup].
Qed.
End recent.

(** X17: a cache that starts empty holds exactly the most recently
    queried paths: after any run of queries the recency order lists the
    distinct paths queried, the latest queried first, cut to the capacity
    when it is not zero, and [knows] answers for exactly these paths,
    whatever the clock and the filesystem did during the run. *)
Theorem new_cache_holds_recent_paths capacity qs th :
  0 ≤ capacity < 2 ^ 32 →
  ∃ s, run (queries qs) (CachedFileStat_new capacity, th) = Some s
       ∧ names (entries s.1) = recent_paths capacity (paths qs)
       ∧ ∀ f, knows f s.1 = true ↔ f ∈ recent_paths capacity (paths qs).
Proof.
  intros Hcap.
  destruct (run_queries qs (CachedFileStat_new capacity) th)
    as (s & Hs & Hw & _ & Hn); [by apply wf_new|].
  cbn [CachedFileStat_new maxSize entries] in Hn.
  change (names []) with (@nil string) in Hn.
  rewrite touches_recent in Hn by lia.
  exists s. split; [done|]. split; [done|]. intros f.
  by rewrite (knows_names f _ (proj1 Hw)), Hn.
Qed.

Lemma new_cache_holds_recent_paths_witness :
  ∃ s, run (queries queries_abc) (CachedFileStat_new 2, thread0) = Some s
       ∧ names (entries s.1) = recent_paths 2 (paths queries_abc)
       ∧ ∀ f, knows f s.1 = true ↔ f ∈ recent_paths 2 (paths queries_abc).
Proof.
  apply (new_cache_holds_recent_paths 2 queries_abc thread0).
  lia.
Defined.
